(** * Ideon map scraper: tooltip parsing, scan de-duplication, state
      roll-up, CSV export and the automated verifier

    A shallow embedding of the Python scripts under [scripts/]:
    - [scrape_ideon_map.py]: [parse_money], [TOOLTIP_PATTERN],
      [parse_tooltip], [scrape_svg_map], [scrape_canvas_map], [scrape_map],
      [write_csv];
    - [export_state_data.py]: [aggregate_by_state], [export_states_csv];
    - [export_county_data.py]: [filter_data], [export_counties_csv];
    - [auto_verify.py]: the scan and the comparison loop of [verify].

    Modelling conventions.
    - A Python [str] is a list of Unicode code points ([pystr]).
    - The part of [re] the scripts use (character sets, greedy repetition of
      a one-character atom, literals, concatenation, capturing groups,
      [search], [findall], the IGNORECASE flag) is a backtracking matcher
      with the priorities of Python's engine.  [\d] is decided on the ASCII
      digits and case folding on the ASCII and Latin-1 letters.
    - [float(...)] and the numbers of the JSON feed are exact rationals
      ([Q]): a decimal literal denotes the decimal it writes; the binary
      rounding, overflow and underflow of IEEE doubles are outside this
      part of the model, and [round(x, 2)] rounds the exact value, ties to
      even.  The verifier only subtracts and compares, and is modelled on
      binary64 floats ([PrimFloat]), which is what Python computes with.
    - The browser is an oracle: a page answers every hover with the tooltip
      text [get_tooltip_text] would return. *)

From Stdlib Require Import ZArith QArith Qabs Lqa Ascii String PrimFloat Sorted.
From stdpp Require Import base option list sorting gmap strings.

Set Warnings "-inexact-float,-clear-no-such-hyp".

Open Scope Z_scope.

(** ** Python strings *)

Module PyStr.

Definition char := N.
Definition pystr := list N.

(** A string literal of the source, for ASCII text. *)
Fixpoint lit (s : string) : pystr :=
  match s with
  | EmptyString => []
  | String a s' => N_of_ascii a :: lit s'
  end.

Definition in_range (lo hi c : N) : bool := (lo <=? c)%N && (c <=? hi)%N.

(** [str.isspace] for one character, which is also [\s] of [re] on
    [str] patterns. *)
Definition isspace (c : N) : bool :=
  in_range 9 13 c || in_range 28 32 c || (c =? 133)%N || (c =? 160)%N
  || (c =? 5760)%N || in_range 8192 8202 c || (c =? 8232)%N
  || (c =? 8233)%N || (c =? 8239)%N || (c =? 8287)%N || (c =? 12288)%N.

Definition isdigit (c : N) : bool := in_range 48 57 c.

Definition digit_value (c : N) : Z := Z.of_N c - 48.

Definition lower (c : N) : N :=
  if in_range 65 90 c then (c + 32)%N
  else if in_range 192 222 c && negb (c =? 215)%N then (c + 32)%N
  else c.

Definition upper (c : N) : N :=
  if in_range 97 122 c then (c - 32)%N
  else if in_range 224 254 c && negb (c =? 247)%N then (c - 32)%N
  else c.

(** [text.split()]: the maximal runs of non-whitespace characters. *)
Fixpoint split_go (cur : pystr) (s : pystr) : list pystr :=
  match s with
  | [] => match cur with [] => [] | _ => [cur] end
  | c :: s' =>
      if isspace c
      then match cur with
           | [] => split_go [] s'
           | _ => cur :: split_go [] s'
           end
      else split_go (cur ++ [c]) s'
  end.

Definition split (s : pystr) : list pystr := split_go [] s.

(** [sep.join(parts)]. *)
Fixpoint join (sep : pystr) (parts : list pystr) : pystr :=
  match parts with
  | [] => []
  | [w] => w
  | w :: ws => w ++ sep ++ join sep ws
  end.

(** [s.lstrip()], [s.rstrip()] and [s.strip()]. *)
Fixpoint lstrip (s : pystr) : pystr :=
  match s with
  | [] => []
  | c :: s' => if isspace c then lstrip s' else s
  end.

Definition rstrip (s : pystr) : pystr := reverse (lstrip (reverse s)).

Definition strip (s : pystr) : pystr := rstrip (lstrip s).

(** [s.replace(old, new)] for a one-character [old]. *)
Definition replace (old : N) (new : pystr) (s : pystr) : pystr :=
  flat_map (fun c => if (c =? old)%N then new else [c]) s.

(** [sub in s] for a one-character [sub]. *)
Definition contains (c : N) (s : pystr) : bool := existsb (N.eqb c) s.

(** [s.capitalize()]. *)
Definition capitalize (s : pystr) : pystr :=
  match s with
  | [] => []
  | c :: s' => upper c :: map lower s'
  end.

(** The order of [<] and [<=] on [str]: lexicographic on code points. *)
Fixpoint ltb (a b : pystr) : bool :=
  match a, b with
  | _, [] => false
  | [], _ :: _ => true
  | x :: a', y :: b' => (x <? y)%N || ((x =? y)%N && ltb a' b')
  end.

Definition eqb (a b : pystr) : bool := bool_decide (a = b).

End PyStr.


(** ** The fragment of Python's [re] used by the scripts *)

Module Re.
Import PyStr.

(** Members of a character set [[...]]. *)
Inductive item :=
| Chr (c : N)
| Range (lo hi : N)
| Digit
| Space.

Record cset := { negated : bool; items : list item }.

(** Membership, [ic] being the IGNORECASE flag. *)
Definition item_mem (ic : bool) (x : item) (c : N) : bool :=
  match x with
  | Chr a => if ic then (lower c =? lower a)%N else (c =? a)%N
  | Range lo hi =>
      in_range lo hi c
      || (ic && (in_range lo hi (lower c) || in_range lo hi (upper c)))
  | Digit => isdigit c
  | Space => isspace c
  end.

Definition cset_mem (ic : bool) (cs : cset) (c : N) : bool :=
  xorb (negated cs) (existsb (fun x => item_mem ic x c) (items cs)).

(** Patterns: every quantifier of the scripts' patterns is greedy and
    applies to a one-character atom, [Rep cs lo hi] is [cs{lo,hi}]. *)
Inductive re :=
| Empty
| Lit (s : pystr)
| Rep (cs : cset) (lo : nat) (hi : option nat)
| Cat (r1 r2 : re)
| Group (name : string) (r : re).

Definition cats (rs : list re) : re := foldr Cat Empty rs.

Definition one (cs : cset) : re := Rep cs 1 (Some 1%nat).
Definition star (cs : cset) : re := Rep cs 0 None.
Definition plus (cs : cset) : re := Rep cs 1 None.
Definition opt (cs : cset) : re := Rep cs 0 (Some 1%nat).

Definition captures := gmap string pystr.

Definition chr_eq (ic : bool) (a c : N) : bool :=
  if ic then (lower c =? lower a)%N else (c =? a)%N.

Fixpoint lit_prefix (ic : bool) (l s : pystr) : option pystr :=
  match l, s with
  | [], _ => Some s
  | a :: l', c :: s' => if chr_eq ic a c then lit_prefix ic l' s' else None
  | _ :: _, [] => None
  end.

(** Length of the longest prefix of [s] inside [cs], capped by [hi]. *)
Fixpoint run (ic : bool) (cs : cset) (hi : option nat) (s : pystr)
    {struct s} : nat :=
  match hi with
  | Some O => O
  | _ =>
      match s with
      | [] => O
      | c :: s' =>
          if cset_mem ic cs c then S (run ic cs (pred <$> hi) s') else O
      end
  end.

(** Greedy repetition: the longest run first, then one character less at
    a time, never below [lo]. *)
Fixpoint backoff {A} (lo : nat) (try : nat -> option A) (n : nat) : option A :=
  if (n <? lo)%nat then None
  else match try n with
       | Some a => Some a
       | None => match n with
                 | O => None
                 | S n' => backoff lo try n'
                 end
       end.

(** The matcher, in continuation-passing style: [k] is the rest of the
    pattern, the first success in priority order is the result. *)
Fixpoint exec {A} (ic : bool) (r : re) (s : pystr) (caps : captures)
    (k : pystr -> captures -> option A) : option A :=
  match r with
  | Empty => k s caps
  | Lit l =>
      match lit_prefix ic l s with
      | Some s' => k s' caps
      | None => None
      end
  | Rep cs lo hi => backoff lo (fun n => k (drop n s) caps) (run ic cs hi s)
  | Cat r1 r2 => exec ic r1 s caps (fun s' caps' => exec ic r2 s' caps' k)
  | Group name r0 =>
      exec ic r0 s caps
        (fun s' caps' =>
           k s' (<[name := take (length s - length s') s]> caps'))
  end.

(** A match: the matched text, the groups and the text after the match. *)
Record rmatch := { matched : pystr; groups : captures; rest : pystr }.

Definition match_here (ic : bool) (r : re) (s : pystr) : option rmatch :=
  exec ic r s ∅
    (fun s' caps =>
       Some {| matched := take (length s - length s') s;
               groups := caps; rest := s' |}).

(** [pattern.search(s)]: the leftmost match. *)
Fixpoint search (ic : bool) (r : re) (s : pystr) : option rmatch :=
  match match_here ic r s with
  | Some m => Some m
  | None => match s with
            | [] => None
            | _ :: s' => search ic r s'
            end
  end.

(** [m.group(name)]. *)
Definition group (m : rmatch) (name : string) : pystr :=
  default [] (groups m !! name).

(** [re.findall(pattern, s)] for a pattern with the one group [name]: the
    group's text in the successive non-overlapping matches. *)
Fixpoint findall_go (fuel : nat) (ic : bool) (r : re) (name : string)
    (s : pystr) : list pystr :=
  match fuel with
  | O => []
  | S fuel' =>
      match search ic r s with
      | None => []
      | Some m =>
          group m name ::
          match matched m, rest m with
          | [], [] => []
          | [], _ :: s' => findall_go fuel' ic r name s'
          | _ :: _, s' => findall_go fuel' ic r name s'
          end
      end
  end.

Definition findall (ic : bool) (r : re) (name : string) (s : pystr)
    : list pystr :=
  findall_go (S (length s)) ic r name s.

End Re.


(** ** Exceptions and floats *)

Inductive exn := ValueError.

(** The outcome of a call: a returned value or a raised exception. *)
Inductive outcome (A : Type) :=
| Return (a : A)
| Raise (e : exn).
Arguments Return {A} a.
Arguments Raise {A} e.

#[global] Instance outcome_ret : MRet outcome := @Return.
#[global] Instance outcome_bind : MBind outcome :=
  fun A B (f : A -> outcome B) (m : outcome A) =>
    match m with
    | Return a => f a
    | Raise e => Raise e
    end.

(** The value of a Python float, as far as [float(str)] can produce it. *)
Inductive pyfloat :=
| Fin (q : Q)
| Inf (negative : bool)
| NaN.

Module PyFloat.
Import PyStr.

(** [digit (["_"] digit)*]: the digits are accumulated onto [acc], [n]
    counts them. *)
Fixpoint digitpart (acc : Z) (n : nat) (s : pystr) : Z * nat * pystr :=
  match s with
  | [] => (acc, n, s)
  | c :: s' =>
      if isdigit c then digitpart (10 * acc + digit_value c) (S n) s'
      else if (c =? 95)%N then
        match n, s' with
        | S _, d :: s'' =>
            if isdigit d
            then digitpart (10 * acc + digit_value d) (S n) s''
            else (acc, n, s)
        | _, _ => (acc, n, s)
        end
      else (acc, n, s)
  end.

Definition sign (s : pystr) : bool * pystr :=
  match s with
  | 45%N :: s' => (true, s')
  | 43%N :: s' => (false, s')
  | _ => (false, s)
  end.

(** [m * 10^e]. *)
Definition scale10 (m e : Z) : Q :=
  if 0 <=? e then inject_Z (m * 10 ^ e) else m # Z.to_pos (10 ^ (- e)).

(** [[e|E] [sign] digitpart], when the text goes on after the mantissa. *)
Definition exponent (s : pystr) : option Z :=
  match s with
  | [] => Some 0
  | c :: s' =>
      if (c =? 101)%N || (c =? 69)%N then
        let '(neg, s1) := sign s' in
        match digitpart 0 0 s1 with
        | (e, S _, []) => Some (if neg then - e else e)
        | _ => None
        end
      else None
  end.

(** [digitpart ["." [digitpart]] [exponent] | "." digitpart [exponent]]. *)
Definition number (neg : bool) (s : pystr) : option pyfloat :=
  let '(ip, ni, r1) := digitpart 0 0 s in
  let '(m, nf, r2) :=
    match r1 with
    | 46%N :: r => digitpart ip 0 r
    | _ => (ip, O, r1)
    end in
  match (ni + nf)%nat with
  | O => None
  | S _ =>
      match exponent r2 with
      | Some e =>
          Some (Fin (scale10 (if neg then - m else m) (e - Z.of_nat nf)))
      | None => None
      end
  end.

(** [float(s)] on a string: surrounding whitespace is ignored, then a
    signed decimal, [inf], [infinity] or [nan]; anything else raises
    [ValueError]. *)
Definition py_float (s : pystr) : outcome pyfloat :=
  let '(neg, body) := sign (strip s) in
  let word := map lower body in
  if bool_decide (word = lit "inf") || bool_decide (word = lit "infinity")
  then Return (Inf neg)
  else if bool_decide (word = lit "nan") then Return NaN
  else match number neg body with
       | Some x => Return x
       | None => Raise ValueError
       end.

End PyFloat.


(** ** CSV files and sorting *)

Module Csv.
Import PyStr.

(** A value written to a cell; [None] is written as the empty string. *)
Inductive cell :=
| CStr (s : pystr)
| CInt (z : Z)
| CFloat (x : pyfloat)
| CNone.

Definition float_cell (x : option pyfloat) : cell :=
  match x with
  | Some v => CFloat v
  | None => CNone
  end.

Definition number_cell (x : option Q) : cell := float_cell (Fin <$> x).

(** A file is its rows, the header first; the file system maps paths to
    files. *)
Definition file : Type := list (list cell).
Definition files : Type := gmap pystr file.

Definition header (fieldnames : list string) : list cell :=
  map (fun name => CStr (lit name)) fieldnames.

(** [open(path, "w")], [writeheader] and [writerows]. *)
Definition write (path : pystr) (fieldnames : list string)
    (rows : list (list cell)) (fs : files) : files :=
  <[path := header fieldnames :: rows]> fs.

(** [sorted(l, key=...)], [lt] being [<] on the keys: a stable sort. *)
Fixpoint insert_by {A} (lt : A -> A -> bool) (x : A) (l : list A) : list A :=
  match l with
  | [] => [x]
  | y :: l' => if lt y x then y :: insert_by lt x l' else x :: y :: l'
  end.

Definition sorted {A} (lt : A -> A -> bool) (l : list A) : list A :=
  foldr (insert_by lt) [] l.

(** [<] on pairs and triples of keys. *)
Definition lt2 (a b : pystr * pystr) : bool :=
  ltb a.1 b.1 || (bool_decide (a.1 = b.1) && ltb a.2 b.2).

Definition lt3 (a b : pystr * Z * pystr) : bool :=
  ltb a.1.1 b.1.1
  || (bool_decide (a.1.1 = b.1.1)
      && ((a.1.2 <? b.1.2) || ((a.1.2 =? b.1.2) && ltb a.2 b.2))).

End Csv.


(** ** [scrape_ideon_map.py] *)

Module Scraper.
Import PyStr.

Definition ch (a : ascii) : N := N_of_ascii a.

(** [parse_money]: the value is [None] or a string. *)
Definition parse_money (value : option pystr) : outcome (option pyfloat) :=
  match value with
  | None => Return None
  | Some [] => Return None
  | Some v =>
      let cleaned := strip (replace (ch "$") [] (replace (ch ",") [] v)) in
      match PyFloat.py_float cleaned with
      | Return x => Return (Some x)
      | Raise ValueError => Return None
      end
  end.

Definition not_comma : Re.cset :=
  {| Re.negated := true; Re.items := [Re.Chr (ch ",")] |}.
Definition upper_letter : Re.cset :=
  {| Re.negated := false; Re.items := [Re.Range (ch "A") (ch "Z")] |}.
Definition space : Re.cset :=
  {| Re.negated := false; Re.items := [Re.Space] |}.
Definition dollar : Re.cset :=
  {| Re.negated := false; Re.items := [Re.Chr (ch "$")] |}.
Definition dot : Re.cset :=
  {| Re.negated := false; Re.items := [Re.Chr (ch ".")] |}.
Definition digit : Re.cset :=
  {| Re.negated := false; Re.items := [Re.Digit] |}.
(** [[\d,.-]] *)
Definition amount_char : Re.cset :=
  {| Re.negated := false;
     Re.items := [Re.Digit; Re.Chr (ch ","); Re.Chr (ch "."); Re.Chr (ch "-")] |}.
(** [[\d,]] *)
Definition digit_or_comma : Re.cset :=
  {| Re.negated := false; Re.items := [Re.Digit; Re.Chr (ch ",")] |}.
(** The set between [Ind] and [Small], as the file has it: [-] and the
    three characters U+00E2, U+20AC, U+201C. *)
Definition dash : Re.cset :=
  {| Re.negated := false;
     Re.items := [Re.Chr (ch "-"); Re.Chr 226; Re.Chr 8364; Re.Chr 8220] |}.

(** [TOOLTIP_PATTERN], compiled with IGNORECASE (and DOTALL, which has no
    [.] to act on). *)
Definition TOOLTIP_PATTERN : Re.re :=
  Re.cats
    [ Re.Group "county" (Re.plus not_comma); Re.Lit (lit ","); Re.star space;
      Re.Group "state" (Re.Rep upper_letter 2 (Some 2%nat)); Re.star space;
      Re.Lit (lit "Diff"); Re.star space; Re.Lit (lit "(Ind"); Re.star space;
      Re.one dash; Re.star space; Re.Lit (lit "Small):"); Re.star space;
      Re.opt dollar; Re.Group "diff" (Re.plus amount_char); Re.star space;
      Re.Lit (lit "Individual:"); Re.star space; Re.opt dollar;
      Re.Group "individual" (Re.plus amount_char); Re.star space;
      Re.Lit (lit "Small"); Re.star space; Re.Lit (lit "Group:");
      Re.star space; Re.opt dollar;
      Re.Group "small_group" (Re.plus amount_char) ].

(** [([^,]+),\s*([A-Z]{2})] *)
Definition SIMPLE_PATTERN : Re.re :=
  Re.cats
    [ Re.Group "1" (Re.plus not_comma); Re.Lit (lit ","); Re.star space;
      Re.Group "2" (Re.Rep upper_letter 2 (Some 2%nat)) ].

(** The pattern of [re.findall]: an optional dollar sign, then the group
    of one or more digits or commas, an optional dot and any digits. *)
Definition NUMBER_PATTERN : Re.re :=
  Re.cats
    [ Re.opt dollar;
      Re.Group "1"
        (Re.cats [Re.plus digit_or_comma; Re.opt dot; Re.star digit]) ].

(** The dictionary [parse_tooltip] returns. *)
Record sample := {
  county : pystr;
  state : pystr;
  individual_premium : option pyfloat;
  small_group_premium : option pyfloat;
  difference : option pyfloat
}.

(** [numbers[i]] for a Python index, negative ones counting from the end;
    every use is guarded by a length test. *)
Definition index (l : list pystr) (i : Z) : option pystr :=
  if 0 <=? i then l !! Z.to_nat i
  else l !! Z.to_nat (Z.of_nat (length l) + i).

Definition parse_tooltip (text : option pystr) : outcome (option sample) :=
  match text with
  | None => Return None
  | Some [] => Return None
  | Some raw =>
      let text := join (lit " ") (split raw) in
      match Re.search true TOOLTIP_PATTERN text with
      | Some m =>
          i ← parse_money (Some (Re.group m "individual"));
          s ← parse_money (Some (Re.group m "small_group"));
          d ← parse_money (Some (Re.group m "diff"));
          Return (Some {| county := strip (Re.group m "county");
                          state := strip (Re.group m "state");
                          individual_premium := i;
                          small_group_premium := s;
                          difference := d |})
      | None =>
          match Re.search false SIMPLE_PATTERN text with
          | Some simple =>
              let numbers := Re.findall false NUMBER_PATTERN "1" text in
              if (2 <=? length numbers)%nat then
                i ← (if (2 <=? length numbers)%nat
                      then parse_money (index numbers (-2))
                      else Return None);
                s ← (if (1 <=? length numbers)%nat
                      then parse_money (index numbers (-1))
                      else Return None);
                d ← (if (3 <=? length numbers)%nat
                      then parse_money (index numbers 0)
                      else Return None);
                Return (Some {| county := strip (Re.group simple "1");
                                state := strip (Re.group simple "2");
                                individual_premium := i;
                                small_group_premium := s;
                                difference := d |})
              else Return None
          | None => Return None
          end
      end
  end.

(** *** The hover scans

    What the browser contributes to a scan: for a path element its
    bounding box, whether hovering it succeeds, and the text
    [get_tooltip_text] returns afterwards; for the canvas its bounding box
    and the tooltip text at every pointer position. *)

Record box := { bx : Q; by_ : Q; width : Q; height : Q }.

Inductive hover_result := HoverOk | HoverTimeout | HoverError.

Record path_element := {
  bounding_box : option box;
  hover : hover_result;
  path_tooltip : option pystr
}.

Record page := {
  svg_paths : list path_element;
  canvas_elements : nat;
  canvas_box : option box;
  tooltip_at : Z -> Z -> option pystr
}.

(** The command-line arguments the scans read. *)
Record args := { year : Z; age : Z; metal : pystr }.

(** An entry of [results]: the parsed dictionary with the three keys the
    scan adds to it. *)
Record result := {
  data : sample;
  r_year : Z;
  r_age : Z;
  r_metal : pystr
}.

(** [f"{data['county']}, {data['state']}"] *)
Definition key_of (d : sample) : pystr := county d ++ lit ", " ++ state d.

(** The state of a scan: the set [seen] and the list [results]. *)
Definition scan_state : Type := gset pystr * list result.

(** What a tooltip text contributes: [if tooltip_text:], then
    [data = parse_tooltip(tooltip_text)] and [if data:]. *)
Definition parsed (tooltip_text : option pystr) : option sample :=
  match tooltip_text with
  | None | Some [] => None
  | Some _ =>
      match parse_tooltip tooltip_text with
      | Return (Some d) => Some d
      | _ => None
      end
  end.

(** [if key not in seen: seen.add(key); ...; results.append(data)] *)
Definition add_sample (a : args) (st : scan_state) (d : sample)
    : scan_state :=
  let key := key_of d in
  if decide (key ∈ st.1) then st
  else ({[ key ]} ∪ st.1,
        st.2 ++ [ {| data := d; r_year := year a; r_age := age a;
                     r_metal := metal a |} ]).

(** The body both scans run on a tooltip text (lines 196-205 and
    254-264). *)
Definition record_tooltip (a : args) (st : scan_state)
    (tooltip_text : option pystr) : scan_state :=
  match parsed tooltip_text with
  | Some d => add_sample a st d
  | None => st
  end.

(** A scan fed with parsed samples, from the empty [seen] and
    [results]. *)
Definition scan (a : args) (samples : list sample) : scan_state :=
  foldl (add_sample a) (∅, []) samples.

(** One iteration of the loop of [scrape_svg_map]. *)
Definition svg_step (a : args) (st : scan_state) (p : path_element)
    : scan_state :=
  match bounding_box p with
  | None => st
  | Some b =>
      if Qlt_le_dec (width b) 2 then st
      else if Qlt_le_dec (height b) 2 then st
      else match hover p with
           | HoverOk => record_tooltip a st (path_tooltip p)
           | HoverTimeout | HoverError => st
           end
  end.

Definition scrape_svg_map (pg : page) (a : args) : list result :=
  let paths := filter (fun p => is_Some (bounding_box p)) (svg_paths pg) in
  (foldl (svg_step a) (∅, []) paths).2.

(** [int(x)] on a float: truncation towards zero. *)
Definition int (x : Q) : Z := Z.quot (Qnum x) (Zpos (Qden x)).

(** [range(start, stop, step)] for a positive [step]. *)
Definition range (start stop step : Z) : list Z :=
  map (fun k => start + step * Z.of_nat k)
      (seq 0 (Z.to_nat ((stop - start + step - 1) / step))).

Definition step_x : Z := 8.
Definition step_y : Z := 8.

(** The grid points of [scrape_canvas_map], row by row. *)
Definition grid (b : box) : list (Z * Z) :=
  y ← range (int (by_ b)) (int (by_ b + height b)) step_y;
  x ← range (int (bx b)) (int (bx b + width b)) step_x;
  [(x, y)].

Definition scrape_canvas_map (pg : page) (a : args) : list result :=
  match canvas_box pg with
  | None => []
  | Some b =>
      (foldl (fun st '(x, y) => record_tooltip a st (tooltip_at pg x y))
             (∅, []) (grid b)).2
  end.

(** The tooltip texts the two scans read, in order. *)
Definition svg_tooltips (pg : page) : list (option pystr) :=
  map (fun p =>
         match bounding_box p with
         | None => None
         | Some b =>
             if Qlt_le_dec (width b) 2 then None
             else if Qlt_le_dec (height b) 2 then None
             else match hover p with
                  | HoverOk => path_tooltip p
                  | HoverTimeout | HoverError => None
                  end
         end)
      (filter (fun p => is_Some (bounding_box p)) (svg_paths pg)).

Definition canvas_tooltips (pg : page) : list (option pystr) :=
  match canvas_box pg with
  | None => []
  | Some b => map (fun '(x, y) => tooltip_at pg x y) (grid b)
  end.

(** The scan [scrape_map] selects. *)
Definition scrape_map (pg : page) (a : args) : list result :=
  let svg_paths := length (svg_paths pg) in
  let canvas_elements := canvas_elements pg in
  if (100 <? svg_paths)%nat then scrape_svg_map pg a
  else if (0 <? canvas_elements)%nat then scrape_canvas_map pg a
  else
    let results := scrape_svg_map pg a in
    if (length results <? 50)%nat then scrape_canvas_map pg a
    else results.

(** [write_csv]: nothing is opened for an empty list. *)
Definition fieldnames : list string :=
  [ "county"; "state"; "fips"; "individual_premium"; "small_group_premium";
    "difference"; "year"; "age"; "metal" ]%string.

(** A row of the file; [fips] is not a key of the results and is written
    as the writer's default, the empty string. *)
Definition csv_row (r : result) : list Csv.cell :=
  [ Csv.CStr (county (data r)); Csv.CStr (state (data r)); Csv.CStr [];
    Csv.float_cell (individual_premium (data r));
    Csv.float_cell (small_group_premium (data r));
    Csv.float_cell (difference (data r));
    Csv.CInt (r_year r); Csv.CInt (r_age r); Csv.CStr (r_metal r) ].

Definition write_csv (results : list result) (output_path : pystr)
    (fs : Csv.files) : Csv.files :=
  match results with
  | [] => fs
  | _ =>
      let sorted_results :=
        Csv.sorted
          (fun x y => Csv.lt2 (state (data x), county (data x))
                              (state (data y), county (data y)))
          results in
      Csv.write output_path fieldnames (map csv_row sorted_results) fs
  end.

End Scraper.


(** ** The upstream JSON feed *)

Module Feed.
Import PyStr.

(** A row of the feed: the keys [year] (offset from 2000), [age], [lvl],
    [st], [n], [f] are present in every row, the three premiums [i], [s]
    and [d] may be [null]. *)
Record row := {
  year : Z;
  age : Z;
  lvl : pystr;
  st : pystr;
  n : pystr;
  f : pystr;
  i : option Q;
  s : option Q;
  d : option Q
}.

End Feed.


(** ** [export_county_data.py] *)

Module CountyExport.
Import PyStr.

Definition FIPS_TO_STATE : gmap pystr pystr :=
  list_to_map
    (map (fun p : string * string => (lit p.1, lit p.2))
       [ ("01", "Alabama"); ("02", "Alaska"); ("04", "Arizona");
         ("05", "Arkansas"); ("06", "California"); ("08", "Colorado");
         ("09", "Connecticut"); ("10", "Delaware");
         ("11", "District of Columbia"); ("12", "Florida");
         ("13", "Georgia"); ("15", "Hawaii"); ("16", "Idaho");
         ("17", "Illinois"); ("18", "Indiana"); ("19", "Iowa");
         ("20", "Kansas"); ("21", "Kentucky"); ("22", "Louisiana");
         ("23", "Maine"); ("24", "Maryland"); ("25", "Massachusetts");
         ("26", "Michigan"); ("27", "Minnesota"); ("28", "Mississippi");
         ("29", "Missouri"); ("30", "Montana"); ("31", "Nebraska");
         ("32", "Nevada"); ("33", "New Hampshire"); ("34", "New Jersey");
         ("35", "New Mexico"); ("36", "New York"); ("37", "North Carolina");
         ("38", "North Dakota"); ("39", "Ohio"); ("40", "Oklahoma");
         ("41", "Oregon"); ("42", "Pennsylvania"); ("44", "Rhode Island");
         ("45", "South Carolina"); ("46", "South Dakota");
         ("47", "Tennessee"); ("48", "Texas"); ("49", "Utah");
         ("50", "Vermont"); ("51", "Virginia"); ("53", "Washington");
         ("54", "West Virginia"); ("55", "Wisconsin"); ("56", "Wyoming");
         ("72", "Puerto Rico") ]%string).

(** [filter_data]: a filter is applied when its argument is given (and
    truthy). *)
Definition filter_data (data : list Feed.row) (year age : option Z)
    (metal : option pystr) : list Feed.row :=
  let by_year :=
    match year with
    | Some y => if y =? 0 then data
                else filter (fun r => Feed.year r = y - 2000) data
    | None => data
    end in
  let by_age :=
    match age with
    | Some a => if a =? 0 then by_year
                else filter (fun r => Feed.age r = a) by_year
    | None => by_year
    end in
  match metal with
  | Some ((_ :: _) as m) =>
      filter (fun r => map lower (Feed.lvl r) = map lower m) by_age
  | _ => by_age
  end.

Definition fieldnames : list string :=
  [ "fips"; "county"; "state_abbr"; "state_name"; "individual_premium";
    "small_group_premium"; "difference"; "year"; "age"; "metal_tier" ]%string.

(** The dictionary [writerow] receives for a row of the feed. *)
Definition csv_row (r : Feed.row) : list Csv.cell :=
  let fips := Feed.f r in
  let state_fips := if (2 <=? length fips)%nat then take 2 fips else [] in
  [ Csv.CStr fips; Csv.CStr (Feed.n r); Csv.CStr (Feed.st r);
    Csv.CStr (default [] (FIPS_TO_STATE !! state_fips));
    Csv.number_cell (Feed.i r); Csv.number_cell (Feed.s r);
    Csv.number_cell (Feed.d r);
    Csv.CInt (2000 + Feed.year r); Csv.CInt (Feed.age r);
    Csv.CStr (capitalize (Feed.lvl r)) ].

(** [export_counties_csv]: the file system after the call and the value
    returned. *)
Definition export_counties_csv (data : list Feed.row) (output_path : pystr)
    (fs : Csv.files) : Csv.files * nat :=
  match data with
  | [] => (fs, O)
  | _ =>
      let sorted_data :=
        Csv.sorted
          (fun x y => Csv.lt2 (Feed.st x, Feed.n x) (Feed.st y, Feed.n y))
          data in
      (Csv.write output_path fieldnames (map csv_row sorted_data) fs,
       length sorted_data)
  end.

End CountyExport.


(** ** [export_state_data.py] *)

Module StateExport.
Import PyStr.

Definition STATE_NAMES : gmap pystr pystr :=
  list_to_map
    (map (fun p : string * string => (lit p.1, lit p.2))
       [ ("AL", "Alabama"); ("AK", "Alaska"); ("AZ", "Arizona");
         ("AR", "Arkansas"); ("CA", "California"); ("CO", "Colorado");
         ("CT", "Connecticut"); ("DE", "Delaware");
         ("DC", "District of Columbia"); ("FL", "Florida");
         ("GA", "Georgia"); ("HI", "Hawaii"); ("ID", "Idaho");
         ("IL", "Illinois"); ("IN", "Indiana"); ("IA", "Iowa");
         ("KS", "Kansas"); ("KY", "Kentucky"); ("LA", "Louisiana");
         ("ME", "Maine"); ("MD", "Maryland"); ("MA", "Massachusetts");
         ("MI", "Michigan"); ("MN", "Minnesota"); ("MS", "Mississippi");
         ("MO", "Missouri"); ("MT", "Montana"); ("NE", "Nebraska");
         ("NV", "Nevada"); ("NH", "New Hampshire"); ("NJ", "New Jersey");
         ("NM", "New Mexico"); ("NY", "New York"); ("NC", "North Carolina");
         ("ND", "North Dakota"); ("OH", "Ohio"); ("OK", "Oklahoma");
         ("OR", "Oregon"); ("PA", "Pennsylvania"); ("RI", "Rhode Island");
         ("SC", "South Carolina"); ("SD", "South Dakota");
         ("TN", "Tennessee"); ("TX", "Texas"); ("UT", "Utah");
         ("VT", "Vermont"); ("VA", "Virginia"); ("WA", "Washington");
         ("WV", "West Virginia"); ("WI", "Wisconsin"); ("WY", "Wyoming");
         ("PR", "Puerto Rico") ]%string).

(** [statistics.mean] on a non-empty list. *)
Definition mean (vals : list Q) : Q :=
  (foldr Qplus 0 vals / inject_Z (Z.of_nat (length vals)))%Q.

(** [round(x, 0)] to the nearest integer, ties to even. *)
Definition round_half_even (x : Q) : Z :=
  let den := Zpos (Qden x) in
  let fl := Qnum x / den in
  match 2 * (Qnum x mod den) ?= den with
  | Lt => fl
  | Gt => fl + 1
  | Eq => if Z.even fl then fl else fl + 1
  end.

(** [round(x, 2)]. *)
Definition round2 (x : Q) : Q := round_half_even (x * 100) # 100.

(** The key of a group: [(st, age, lvl)]. *)
Definition group_key : Type := pystr * Z * pystr.

Definition key_of (r : Feed.row) : group_key :=
  (Feed.st r, Feed.age r, Feed.lvl r).

(** [groups[key].append(row)] on the [defaultdict(list)], whose keys stay
    in insertion order. *)
Fixpoint append_to (key : group_key) (r : Feed.row)
    (groups : list (group_key * list Feed.row))
    : list (group_key * list Feed.row) :=
  match groups with
  | [] => [(key, [r])]
  | (k, rows) :: groups' =>
      if decide (k = key) then (k, rows ++ [r]) :: groups'
      else (k, rows) :: append_to key r groups'
  end.

(** A dictionary of [results]. *)
Record aggregate := {
  state_abbr : pystr;
  state_name : pystr;
  age : Z;
  metal_tier : pystr;
  individual_premium_avg : option Q;
  small_group_premium_avg : option Q;
  difference_avg : option Q;
  county_count : nat;
  year : Z
}.

(** [round(mean(vals), 2) if vals else None] *)
Definition average (vals : list Q) : option Q :=
  match vals with
  | [] => None
  | _ => Some (round2 (mean vals))
  end.

Definition summarise (year : Z) (g : group_key * list Feed.row) : aggregate :=
  let '((state, age, metal), rows) := g in
  let individual_vals := omap Feed.i rows in
  let small_group_vals := omap Feed.s rows in
  let diff_vals := omap Feed.d rows in
  {| state_abbr := state;
     state_name := default state (STATE_NAMES !! state);
     age := age;
     metal_tier := match metal with [] => [] | _ => capitalize metal end;
     individual_premium_avg := average individual_vals;
     small_group_premium_avg := average small_group_vals;
     difference_avg := average diff_vals;
     county_count := length rows;
     year := year |}.

Definition aggregate_by_state (data : list Feed.row) (year : Z)
    : list aggregate :=
  let year_code := year - 2000 in
  let year_data := filter (fun r => Feed.year r = year_code) data in
  let groups := foldl (fun g r => append_to (key_of r) r g) [] year_data in
  map (summarise year) groups.

Definition fieldnames : list string :=
  [ "state_abbr"; "state_name"; "individual_premium_avg";
    "small_group_premium_avg"; "difference_avg"; "county_count"; "year";
    "age"; "metal_tier" ]%string.

Definition csv_row (a : aggregate) : list Csv.cell :=
  [ Csv.CStr (state_abbr a); Csv.CStr (state_name a);
    Csv.number_cell (individual_premium_avg a);
    Csv.number_cell (small_group_premium_avg a);
    Csv.number_cell (difference_avg a);
    Csv.CInt (Z.of_nat (county_count a)); Csv.CInt (year a);
    Csv.CInt (age a); Csv.CStr (metal_tier a) ].

(** [export_states_csv]: the file system after the call and the value
    returned. *)
Definition export_states_csv (data : list aggregate) (output_path : pystr)
    (fs : Csv.files) : Csv.files * nat :=
  match data with
  | [] => (fs, O)
  | _ =>
      let sorted_data :=
        Csv.sorted
          (fun x y => Csv.lt3 (state_abbr x, age x, metal_tier x)
                              (state_abbr y, age y, metal_tier y))
          data in
      (Csv.write output_path fieldnames (map csv_row sorted_data) fs,
       length sorted_data)
  end.

End StateExport.


(** ** [auto_verify.py]: the comparison of [verify] *)

Module AutoVerify.
Import PyStr.

(** The dictionary the verifier's [parse_tooltip] returns. *)
Record web_data := {
  county : pystr;
  state : pystr;
  difference : option float;
  individual : option float;
  small_group : option float
}.

(** A row of [county_data_raw.json], as the comparison reads it. *)
Record our_record := {
  i : option float;
  s : option float;
  d : option float
}.

(** Truth value of a number or [None]: [None] and zero are false. *)
Definition truthy (x : option float) : bool :=
  match x with
  | Some v => negb (PrimFloat.eqb v 0)
  | None => false
  end.

(** A value that is present and equal to zero ([0.0] or [-0.0]). *)
Definition is_zero (x : option float) : bool :=
  match x with
  | Some v => PrimFloat.eqb v 0
  | None => false
  end.

(** What the loop reports besides the values it prints. *)
Inductive event :=
| MismatchIndividual (key : pystr)
| MismatchSmallGroup (key : pystr)
| NotFound (key : pystr).

(** [abs(a - b) > 0.01], false when either side is falsy. *)
Definition differs (a b : option float) : bool :=
  match a, b with
  | Some x, Some y =>
      truthy a && truthy b
      && PrimFloat.ltb 0.01 (PrimFloat.abs (PrimFloat.sub x y))
  | _, _ => false
  end.

(** The reports of one iteration, for [key, web_data]. *)
Definition check (our_lookup : gmap pystr our_record)
    (entry : pystr * web_data) : list event :=
  let '(key, web) := entry in
  match our_lookup !! key with
  | Some our_record =>
      (if differs (individual web) (i our_record)
       then [MismatchIndividual key] else [])
      ++ (if differs (small_group web) (s our_record)
          then [MismatchSmallGroup key] else [])
  | None => [NotFound key]
  end.

(** [sorted(found_counties.items())[:15]] *)
Definition compared (found_counties : gmap pystr web_data)
    : list (pystr * web_data) :=
  take 15 (Csv.sorted (fun x y => ltb x.1 y.1) (map_to_list found_counties)).

(** The loop of lines 128-157: the reports in order, [mismatches] counts
    them. *)
Definition reports (found_counties : gmap pystr web_data)
    (our_lookup : gmap pystr our_record) : list event :=
  foldl (fun log entry => log ++ check our_lookup entry) []
        (compared found_counties).

Definition mismatches (found_counties : gmap pystr web_data)
    (our_lookup : gmap pystr our_record) : nat :=
  length (reports found_counties our_lookup).

(** The value [verify] returns: [mismatches == 0]. *)
Definition verify (found_counties : gmap pystr web_data)
    (our_lookup : gmap pystr our_record) : bool :=
  (mismatches found_counties our_lookup =? 0)%nat.

(** *** The scan that collects the samples (lines 89-109)

    [parse] stands for the verifier's own [parse_tooltip], which may raise
    [ValueError] (its [float(...)] calls are unguarded); [tooltip_at x y]
    is the text [get_tooltip] returns once the pointer is at [(x, y)]. *)

(** [f"{data['county']}, {data['state']}"] *)
Definition key_of (data : web_data) : pystr :=
  county data ++ lit ", " ++ state data.

(** The body of the inner loop at one point: the dictionary afterwards,
    and whether the loop is left by [break]. *)
Definition visit (parse : pystr -> outcome (option web_data))
    (found_counties : gmap pystr web_data) (tooltip_text : option pystr)
    : outcome (gmap pystr web_data * bool) :=
  match tooltip_text with
  | None | Some [] => Return (found_counties, false)
  | Some text =>
      data ← parse text;
      match data with
      | Some d =>
          match county d with
          | [] => Return (found_counties, false)
          | _ :: _ =>
              let key := key_of d in
              match found_counties !! key with
              | Some _ => Return (found_counties, false)
              | None =>
                  let found_counties := <[key := d]> found_counties in
                  Return (found_counties, (20 <=? size found_counties)%nat)
              end
          end
      | None => Return (found_counties, false)
      end
  end.

(** The inner loop, over the tooltips of one row of points. *)
Fixpoint scan_row (parse : pystr -> outcome (option web_data))
    (found_counties : gmap pystr web_data) (row : list (option pystr))
    : outcome (gmap pystr web_data) :=
  match row with
  | [] => Return found_counties
  | tooltip_text :: row' =>
      '(found_counties, stop) ← visit parse found_counties tooltip_text;
      if stop : bool then Return found_counties
      else scan_row parse found_counties row'
  end.

(** The outer loop, left as soon as twenty counties are held. *)
Fixpoint scan_rows (parse : pystr -> outcome (option web_data))
    (found_counties : gmap pystr web_data) (rows : list (list (option pystr)))
    : outcome (gmap pystr web_data) :=
  match rows with
  | [] => Return found_counties
  | row :: rows' =>
      found_counties ← scan_row parse found_counties row;
      if (20 <=? size found_counties)%nat then Return found_counties
      else scan_rows parse found_counties rows'
  end.

(** The rows of points, fifteen pixels apart and twenty pixels inside the
    box of the map, with the tooltip shown at each. *)
Definition step : Z := 15.

Definition rows_of (tooltip_at : Z -> Z -> option pystr) (b : Scraper.box)
    : list (list (option pystr)) :=
  map (fun y =>
         map (fun x => tooltip_at x y)
             (Scraper.range (Scraper.int (Scraper.bx b + 20))
                (Scraper.int (Scraper.bx b + Scraper.width b - 20)) step))
      (Scraper.range (Scraper.int (Scraper.by_ b + 20))
         (Scraper.int (Scraper.by_ b + Scraper.height b - 20)) step).

(** [found_counties] when the scan ends. *)
Definition scan_map (parse : pystr -> outcome (option web_data))
    (tooltip_at : Z -> Z -> option pystr) (b : Scraper.box)
    : outcome (gmap pystr web_data) :=
  scan_rows parse ∅ (rows_of tooltip_at b).

End AutoVerify.


(** ** The strict tooltip format, as the specification writes it *)

Module Format.
Import PyStr.

Inductive digit := D0 | D1 | D2 | D3 | D4 | D5 | D6 | D7 | D8 | D9.

Definition digit_val (d : digit) : Z :=
  match d with
  | D0 => 0 | D1 => 1 | D2 => 2 | D3 => 3 | D4 => 4
  | D5 => 5 | D6 => 6 | D7 => 7 | D8 => 8 | D9 => 9
  end.

Definition digit_char (d : digit) : N := (48 + Z.to_N (digit_val d))%N.

(** The number a sequence of decimal digits writes. *)
Definition number_of (ds : list digit) : Z :=
  foldl (fun acc d => 10 * acc + digit_val d) 0 ds.

(** A dollar amount as it is written: an optional minus sign, the digits
    of the dollars in groups separated by commas, a dot and two digits of
    cents. *)
Record amount := {
  negative : bool;
  dollars : list (list digit);
  cents : digit * digit
}.

Definition written (a : amount) : pystr :=
  (if negative a then lit "-" else [])
  ++ join (lit ",") (map (map digit_char) (dollars a))
  ++ lit "." ++ [digit_char (cents a).1; digit_char (cents a).2].

(** The value of a written amount, exact to the cent. *)
Definition value (a : amount) : Q :=
  let n := number_of (concat (dollars a) ++ [(cents a).1; (cents a).2]) in
  (if negative a then - n else n) # 100.

(** [<county>, <state> Diff (Ind - Small): $<diff> Individual:
    $<individual> Small Group: $<small_group>] *)
Definition strict_text (county state : pystr) (diff individual small_group : amount)
    : pystr :=
  county ++ lit ", " ++ state
  ++ lit " Diff (Ind - Small): $" ++ written diff
  ++ lit " Individual: $" ++ written individual
  ++ lit " Small Group: $" ++ written small_group.

(** Words separated by single spaces: no other whitespace, none at either
    end, and not empty ([after_word] tells whether a non-space character
    precedes). *)
Fixpoint single_spaced (after_word : bool) (t : pystr) : bool :=
  match t with
  | [] => after_word
  | c :: t' =>
      if isspace c then (c =? 32)%N && after_word && single_spaced false t'
      else single_spaced true t'
  end.

(** A county name: single-spaced words without a comma. *)
Definition county_name (county : pystr) : bool :=
  single_spaced false county && forallb (fun c => negb (c =? 44)%N) county.

(** A state code: two upper-case ASCII letters. *)
Definition state_code (state : pystr) : bool :=
  match state with
  | [a; b] => in_range 65 90 a && in_range 65 90 b
  | _ => false
  end.

End Format.


(** ** The roll-up in the words of the specification *)

Module Spec.

(** The arithmetic mean of the values that are present, rounded to two
    decimal places; absent when no value is present. *)
Definition mean_of_present (vals : list (option Q)) : option Q :=
  let present : list Q := omap id vals in
  match present with
  | [] => None
  | _ =>
      Some (StateExport.round2
              (foldr Qplus 0 present
               / inject_Z (Z.of_nat (length present)))%Q)
  end.

End Spec.


(** ** Test data *)

Module Examples.
Import PyStr.

(** The tooltip of the source's comment and of the specification. *)
Definition shasta : pystr :=
  lit "Shasta County, CA Diff (Ind - Small): $605.64 Individual: $1,414.50 Small Group: $808.86".

(** The same text with U+2013 (en dash) between [Ind] and [Small]. *)
Definition shasta_en_dash : pystr :=
  lit "Shasta County, CA Diff (Ind " ++ [8211%N]
  ++ lit " Small): $605.64 Individual: $1,414.50 Small Group: $808.86".

(** The text of the source's comment, on three lines. *)
Definition shasta_lines : pystr :=
  lit "Shasta County, CA" ++ [10%N] ++ lit "Diff (Ind - Small): $605.64"
  ++ [10%N] ++ lit "Individual: $1,414.50  Small Group: $808.86".

Definition travis : pystr :=
  lit "Travis County, TX Individual: $700.98 Small Group: $748.60".

(** A tooltip the strict pattern rejects, with three amounts. *)
Definition travis_three : pystr :=
  lit "Travis County, TX Diff: $47.62 Individual: $700.98 Small Group: $748.60".

(** A scraped county whose individual premium is 5.00 and whose
    small-group premium is 0.0, and an expected record with individual
    premium 0.0. *)
Definition harris_key : pystr := lit "Harris County, TX".

Definition harris_web : AutoVerify.web_data :=
  {| AutoVerify.county := lit "Harris County";
     AutoVerify.state := lit "TX";
     AutoVerify.difference := None;
     AutoVerify.individual := Some 5%float;
     AutoVerify.small_group := Some 0%float |}.

Definition harris_ours : AutoVerify.our_record :=
  {| AutoVerify.i := Some 0%float;
     AutoVerify.s := Some 748.6%float;
     AutoVerify.d := None |}.

Definition harris_found : gmap pystr AutoVerify.web_data :=
  {[ harris_key := harris_web ]}.

Definition harris_lookup : gmap pystr AutoVerify.our_record :=
  {[ harris_key := harris_ours ]}.

(** Two counties of one group, the second without individual premium
    (specification, section 8). *)
Definition feed_row (st county : string) (i s : option Q) : Feed.row :=
  {| Feed.year := 26; Feed.age := 50; Feed.lvl := lit "gold";
     Feed.st := lit st; Feed.n := lit county; Feed.f := [];
     Feed.i := i; Feed.s := s; Feed.d := None |}.

Definition two_counties : list Feed.row :=
  [ feed_row "TX" "Harris County" (Some 100) (Some 200);
    feed_row "TX" "Travis County" None (Some 300) ]%Q.

Definition three_counties : list Feed.row :=
  [ feed_row "TX" "Harris County" (Some 700) None;
    feed_row "TX" "Travis County" (Some 710) None;
    feed_row "TX" "Dallas County" (Some 720) None ]%Q.

(** The three amounts of the Shasta County tooltip as they are written:
    605.64, 1,414.50 and 808.86. *)
Definition shasta_difference : Format.amount :=
  {| Format.negative := false;
     Format.dollars := [[Format.D6; Format.D0; Format.D5]];
     Format.cents := (Format.D6, Format.D4) |}.

Definition shasta_individual : Format.amount :=
  {| Format.negative := false;
     Format.dollars := [[Format.D1]; [Format.D4; Format.D1; Format.D4]];
     Format.cents := (Format.D5, Format.D0) |}.

Definition shasta_small_group : Format.amount :=
  {| Format.negative := false;
     Format.dollars := [[Format.D8; Format.D0; Format.D8]];
     Format.cents := (Format.D8, Format.D6) |}.

(** The Shasta County tooltip with U+00E2, the first character of the
    pattern's set, between [Ind] and [Small]. *)
Definition shasta_a_circumflex : pystr :=
  lit "Shasta County, CA Diff (Ind " ++ [226%N]
  ++ lit " Small): $605.64 Individual: $1,414.50 Small Group: $808.86".

(** The Shasta County tooltip in lower case. *)
Definition shasta_lower : pystr := map lower shasta.

End Examples.


(** * Properties *)

Import PyStr.

(** ** Sorting keeps the elements *)

Section Sorting.
Context {A : Type} (lt : A -> A -> bool).

Lemma insert_by_perm (x : A) (l : list A) : Csv.insert_by lt x l ≡ₚ x :: l.
Proof.
  induction l as [|y l IH]; simpl; [done|].
  destruct (lt y x); [|done].
  rewrite IH. apply Permutation_swap.
Qed.

Lemma sorted_perm (l : list A) : Csv.sorted lt l ≡ₚ l.
Proof.
  induction l as [|x l IH]; simpl; [done|].
  unfold Csv.sorted in IH. by rewrite insert_by_perm, IH.
Qed.

Lemma sorted_length (l : list A) : length (Csv.sorted lt l) = length l.
Proof. by rewrite sorted_perm. Qed.

End Sorting.

(** ** The CSV writers *)

(** C10. For an empty record list none of the three CSV writers touches
    the file system: no file, hence no header row, is produced, and the
    county and state exporters return a row count of zero.  For a non-empty
    list the exporters write the header followed by one row per record and
    return the length of the input list. *)
Theorem csv_writers_empty_and_row_count :
  (∀ path fs, Scraper.write_csv [] path fs = fs) ∧
  (∀ path fs, CountyExport.export_counties_csv [] path fs = (fs, O)) ∧
  (∀ path fs, StateExport.export_states_csv [] path fs = (fs, O)) ∧
  (∀ data path fs,
     data ≠ [] →
     ∃ rows,
       CountyExport.export_counties_csv data path fs
       = (<[path := Csv.header CountyExport.fieldnames :: rows]> fs,
          length data)
       ∧ length rows = length data) ∧
  (∀ data path fs,
     data ≠ [] →
     ∃ rows,
       StateExport.export_states_csv data path fs
       = (<[path := Csv.header StateExport.fieldnames :: rows]> fs,
          length data)
       ∧ length rows = length data).
Proof.
  repeat split; try done.
  - intros data path fs Hne. destruct data as [|r data]; [done|].
    eexists. unfold CountyExport.export_counties_csv, Csv.write.
    rewrite sorted_length. split; [reflexivity|].
    by rewrite length_map, sorted_length.
  - intros data path fs Hne. destruct data as [|r data]; [done|].
    eexists. unfold StateExport.export_states_csv, Csv.write.
    rewrite sorted_length. split; [reflexivity|].
    by rewrite length_map, sorted_length.
Qed.

(** ** Strategy selection *)

(** C8. [scrape_map] uses the path scan when there are more than 100 SVG
    paths; otherwise the grid scan when a canvas element is present;
    otherwise it runs the path scan first and replaces its result by the
    grid scan exactly when the path scan found fewer than 50 counties. *)
Theorem scrape_map_strategy (pg : Scraper.page) (a : Scraper.args) :
  let paths := length (Scraper.svg_paths pg) in
  let canvases := Scraper.canvas_elements pg in
  let by_paths := Scraper.scrape_svg_map pg a in
  let by_grid := Scraper.scrape_canvas_map pg a in
  ((100 < paths)%nat → Scraper.scrape_map pg a = by_paths) ∧
  ((paths ≤ 100)%nat → (0 < canvases)%nat →
   Scraper.scrape_map pg a = by_grid) ∧
  ((paths ≤ 100)%nat → canvases = O →
   ((length by_paths < 50)%nat → Scraper.scrape_map pg a = by_grid) ∧
   ((50 ≤ length by_paths)%nat → Scraper.scrape_map pg a = by_paths)).
Proof.
  intros paths canvases by_paths by_grid. unfold Scraper.scrape_map.
  fold paths canvases by_paths by_grid.
  split; [|split].
  - intros H. by apply Nat.ltb_lt in H as ->.
  - intros H1 H2. apply Nat.ltb_ge in H1 as ->. by apply Nat.ltb_lt in H2 as ->.
  - intros H1 H2. apply Nat.ltb_ge in H1 as ->. rewrite H2. simpl.
    split; intros H3.
    + by apply Nat.ltb_lt in H3 as ->.
    + by apply Nat.ltb_ge in H3 as ->.
Qed.

(** ** The verifier *)

Section Verifier.
Import AutoVerify.
Implicit Types (found : gmap pystr web_data) (lookup : gmap pystr our_record).

Lemma foldl_app_bind {A B} (f : A -> list B) (l : list A) (acc : list B) :
  foldl (fun log x => log ++ f x) acc l = acc ++ (l ≫= f).
Proof.
  revert acc. induction l as [|x l IH]; intros acc; simpl.
  - by rewrite app_nil_r.
  - by rewrite IH, app_assoc.
Qed.

Lemma reports_bind found lookup :
  reports found lookup = compared found ≫= check lookup.
Proof. unfold reports. by rewrite foldl_app_bind. Qed.

Lemma compared_lookup found key web :
  (key, web) ∈ compared found → found !! key = Some web.
Proof.
  unfold compared. intros H.
  apply elem_of_map_to_list. rewrite <- (sorted_perm (fun x y => ltb x.1 y.1)).
  rewrite <- (take_drop 15). apply elem_of_app. by left.
Qed.

Lemma differs_spec (a b : option float) :
  differs a b = true ↔
  ∃ x y, a = Some x ∧ b = Some y ∧ PrimFloat.eqb x 0 = false
         ∧ PrimFloat.eqb y 0 = false
         ∧ PrimFloat.ltb 0.01 (PrimFloat.abs (PrimFloat.sub x y)) = true.
Proof.
  unfold differs, truthy. split.
  - destruct a as [x|], b as [y|]; try done.
    intros [[Hx Hy]%andb_true_iff H]%andb_true_iff.
    apply negb_true_iff in Hx, Hy. by exists x, y.
  - intros (x & y & -> & -> & Hx & Hy & H). by rewrite Hx, Hy, H.
Qed.

Lemma differs_zero (a b : option float) :
  is_zero a = true ∨ is_zero b = true → differs a b = false.
Proof.
  unfold differs, is_zero, truthy.
  destruct a as [x|], b as [y|]; intros [H|H]; try done; rewrite H; simpl;
    [done | by rewrite andb_false_r].
Qed.

(** The reports of one iteration. *)
Lemma check_individual lookup k w key :
  MismatchIndividual key ∈ check lookup (k, w) ↔
  k = key ∧ ∃ our, lookup !! k = Some our
                   ∧ differs (individual w) (i our) = true.
Proof.
  unfold check. destruct (lookup !! k) as [our|].
  - destruct (differs (individual w) (i our)) eqn:Hi,
      (differs (small_group w) (s our)) eqn:Hs; simpl;
      rewrite ?elem_of_cons, ?elem_of_nil;
      (split;
       [ intros H; repeat (destruct H as [H|H]); try contradiction;
         simplify_eq; eauto
       | intros [-> (our0 & ? & ?)]; simplify_eq; auto; congruence ]).
  - rewrite list_elem_of_singleton. naive_solver.
Qed.

Lemma check_small_group lookup k w key :
  MismatchSmallGroup key ∈ check lookup (k, w) ↔
  k = key ∧ ∃ our, lookup !! k = Some our
                   ∧ differs (small_group w) (s our) = true.
Proof.
  unfold check. destruct (lookup !! k) as [our|].
  - destruct (differs (individual w) (i our)) eqn:Hi,
      (differs (small_group w) (s our)) eqn:Hs; simpl;
      rewrite ?elem_of_cons, ?elem_of_nil;
      (split;
       [ intros H; repeat (destruct H as [H|H]); try contradiction;
         simplify_eq; eauto
       | intros [-> (our0 & ? & ?)]; simplify_eq; auto; congruence ]).
  - rewrite list_elem_of_singleton. naive_solver.
Qed.

Lemma check_not_found lookup k w key :
  NotFound key ∈ check lookup (k, w) ↔ k = key ∧ lookup !! k = None.
Proof.
  unfold check. destruct (lookup !! k) as [our|].
  - destruct (differs (individual w) (i our)) eqn:Hi,
      (differs (small_group w) (s our)) eqn:Hs; simpl;
      rewrite ?elem_of_cons, ?elem_of_nil;
      (split;
       [ intros H; repeat (destruct H as [H|H]); try contradiction;
         simplify_eq; eauto
       | intros [_ ?]; simplify_eq ]).
  - rewrite list_elem_of_singleton. naive_solver.
Qed.

(** What is reported about a compared key. *)
Lemma reports_individual found lookup key web :
  (key, web) ∈ compared found →
  MismatchIndividual key ∈ reports found lookup ↔
  ∃ our, lookup !! key = Some our ∧ differs (individual web) (i our) = true.
Proof.
  intros Hin. rewrite reports_bind, list_elem_of_bind. split.
  - intros ([k w] & [-> Hev]%check_individual & Hkw).
    apply compared_lookup in Hin, Hkw. by simplify_eq.
  - intros Hev. exists (key, web). by rewrite check_individual.
Qed.

Lemma reports_small_group found lookup key web :
  (key, web) ∈ compared found →
  MismatchSmallGroup key ∈ reports found lookup ↔
  ∃ our, lookup !! key = Some our ∧ differs (small_group web) (s our) = true.
Proof.
  intros Hin. rewrite reports_bind, list_elem_of_bind. split.
  - intros ([k w] & [-> Hev]%check_small_group & Hkw).
    apply compared_lookup in Hin, Hkw. by simplify_eq.
  - intros Hev. exists (key, web). by rewrite check_small_group.
Qed.

Lemma reports_not_found found lookup key web :
  (key, web) ∈ compared found →
  NotFound key ∈ reports found lookup ↔ lookup !! key = None.
Proof.
  intros Hin. rewrite reports_bind, list_elem_of_bind. split.
  - by intros ([k w] & [-> Hev]%check_not_found & Hkw).
  - intros Hev. exists (key, web). by rewrite check_not_found.
Qed.

End Verifier.

(** C9. In the comparison of the automated verifier a value equal to 0.0
    counts as absent: for a compared key with a counterpart in the expected
    data, no mismatch is reported on the individual (small-group) field
    when the scraped or the expected value of that field is zero, whatever
    the other side holds. *)
Theorem zero_counts_as_absent
    (found : gmap pystr AutoVerify.web_data)
    (lookup : gmap pystr AutoVerify.our_record)
    (key : pystr) (web : AutoVerify.web_data) (our : AutoVerify.our_record) :
  (key, web) ∈ AutoVerify.compared found →
  lookup !! key = Some our →
  (AutoVerify.is_zero (AutoVerify.individual web) = true
   ∨ AutoVerify.is_zero (AutoVerify.i our) = true →
   AutoVerify.MismatchIndividual key ∉ AutoVerify.reports found lookup) ∧
  (AutoVerify.is_zero (AutoVerify.small_group web) = true
   ∨ AutoVerify.is_zero (AutoVerify.s our) = true →
   AutoVerify.MismatchSmallGroup key ∉ AutoVerify.reports found lookup).
Proof.
  intros Hin Hk. split; intros Hz.
  - rewrite (reports_individual _ _ _ _ Hin). intros (our' & Hk' & Hd).
    simplify_eq. by rewrite differs_zero in Hd.
  - rewrite (reports_small_group _ _ _ _ Hin). intros (our' & Hk' & Hd).
    simplify_eq. by rewrite differs_zero in Hd.
Qed.

Lemma harris_compared :
  (Examples.harris_key, Examples.harris_web)
  ∈ AutoVerify.compared Examples.harris_found.
Proof.
  unfold AutoVerify.compared, Examples.harris_found.
  rewrite map_to_list_singleton. simpl. apply list_elem_of_singleton. done.
Qed.

Lemma zero_counts_as_absent_witness :
  (AutoVerify.MismatchIndividual Examples.harris_key
     ∉ AutoVerify.reports Examples.harris_found Examples.harris_lookup)
  ∧ (AutoVerify.MismatchSmallGroup Examples.harris_key
       ∉ AutoVerify.reports Examples.harris_found Examples.harris_lookup).
Proof.
  pose proof (zero_counts_as_absent Examples.harris_found
                Examples.harris_lookup Examples.harris_key
                Examples.harris_web Examples.harris_ours
                harris_compared (lookup_singleton_eq _ _)) as [Hi Hs].
  split; [apply Hi; by right | apply Hs; by left].
Defined.

(** Nothing at all is reported about the test county. *)
Lemma harris_reports :
  AutoVerify.reports Examples.harris_found Examples.harris_lookup = [].
Proof.
  unfold AutoVerify.reports, AutoVerify.compared, Examples.harris_found.
  rewrite map_to_list_singleton. simpl.
  unfold Examples.harris_lookup. by rewrite lookup_singleton_eq.
Qed.

(** The claim C4 as the specification states it, for the individual
    field: a mismatch is reported exactly when both sides have a value and
    the absolute difference exceeds 0.01. *)
Definition mismatch_iff_both_present_and_far : Prop :=
  ∀ (found : gmap pystr AutoVerify.web_data)
    (lookup : gmap pystr AutoVerify.our_record)
    (key : pystr) (web : AutoVerify.web_data) (our : AutoVerify.our_record),
    (key, web) ∈ AutoVerify.compared found →
    lookup !! key = Some our →
    AutoVerify.MismatchIndividual key ∈ AutoVerify.reports found lookup ↔
    ∃ x y, AutoVerify.individual web = Some x ∧ AutoVerify.i our = Some y
           ∧ PrimFloat.ltb 0.01 (PrimFloat.abs (PrimFloat.sub x y)) = true.

(** Scraped 5.00 against expected 0.0: both values are present and 5 apart,
    and nothing is reported. *)
Lemma mismatch_iff_both_present_and_far_fails :
  ¬ mismatch_iff_both_present_and_far.
Proof.
  intros H.
  destruct (H Examples.harris_found Examples.harris_lookup
              Examples.harris_key Examples.harris_web Examples.harris_ours
              harris_compared (lookup_singleton_eq _ _)) as [_ Hrep].
  assert (AutoVerify.MismatchIndividual Examples.harris_key
          ∈ AutoVerify.reports Examples.harris_found Examples.harris_lookup)
    as Hin.
  { apply Hrep. exists 5%float, 0%float. by repeat split. }
  rewrite harris_reports in Hin. by apply elem_of_nil in Hin.
Qed.

(** C4, amended.  For a key among the (at most 15, in key order) compared
    scraped entries: a mismatch on the individual (small-group) field is
    reported exactly when the key has a counterpart, both values of the
    field are present and non-zero, and the computed absolute difference
    exceeds 0.01; a key without counterpart is reported as not found.  A
    computed difference of exactly 0.01 is not flagged (700.99 against
    700.98 is not), one of 0.011 is. *)
Theorem verify_reports
    (found : gmap pystr AutoVerify.web_data)
    (lookup : gmap pystr AutoVerify.our_record)
    (key : pystr) (web : AutoVerify.web_data) :
  (key, web) ∈ AutoVerify.compared found →
  (AutoVerify.MismatchIndividual key ∈ AutoVerify.reports found lookup ↔
   ∃ our x y,
     lookup !! key = Some our
     ∧ AutoVerify.individual web = Some x ∧ AutoVerify.i our = Some y
     ∧ PrimFloat.eqb x 0 = false ∧ PrimFloat.eqb y 0 = false
     ∧ PrimFloat.ltb 0.01 (PrimFloat.abs (PrimFloat.sub x y)) = true) ∧
  (AutoVerify.MismatchSmallGroup key ∈ AutoVerify.reports found lookup ↔
   ∃ our x y,
     lookup !! key = Some our
     ∧ AutoVerify.small_group web = Some x ∧ AutoVerify.s our = Some y
     ∧ PrimFloat.eqb x 0 = false ∧ PrimFloat.eqb y 0 = false
     ∧ PrimFloat.ltb 0.01 (PrimFloat.abs (PrimFloat.sub x y)) = true) ∧
  (AutoVerify.NotFound key ∈ AutoVerify.reports found lookup ↔
   lookup !! key = None) ∧
  (∀ x y, PrimFloat.abs (PrimFloat.sub x y) = 0.01%float →
          AutoVerify.differs (Some x) (Some y) = false) ∧
  (∀ x y, PrimFloat.eqb x 0 = false → PrimFloat.eqb y 0 = false →
          PrimFloat.abs (PrimFloat.sub x y) = 0.011%float →
          AutoVerify.differs (Some x) (Some y) = true) ∧
  AutoVerify.differs (Some 700.99%float) (Some 700.98%float) = false ∧
  AutoVerify.differs (Some 700.991%float) (Some 700.98%float) = true.
Proof.
  intros Hin. split_and!.
  - rewrite (reports_individual _ _ _ _ Hin). split.
    + intros (our & Hk & (x & y & ?)%differs_spec). exists our, x, y. tauto.
    + intros (our & x & y & Hk & ?). exists our. split; [done|].
      apply differs_spec. exists x, y. tauto.
  - rewrite (reports_small_group _ _ _ _ Hin). split.
    + intros (our & Hk & (x & y & ?)%differs_spec). exists our, x, y. tauto.
    + intros (our & x & y & Hk & ?). exists our. split; [done|].
      apply differs_spec. exists x, y. tauto.
  - apply (reports_not_found _ _ _ _ Hin).
  - intros x y H. unfold AutoVerify.differs. rewrite H.
    by rewrite andb_false_r.
  - intros x y Hx Hy H. unfold AutoVerify.differs, AutoVerify.truthy.
    by rewrite H, Hx, Hy.
  - reflexivity.
  - reflexivity.
Qed.

Lemma verify_reports_witness :
  AutoVerify.NotFound Examples.harris_key
    ∈ AutoVerify.reports Examples.harris_found Examples.harris_lookup
  ↔ Examples.harris_lookup !! Examples.harris_key = None.
Proof.
  exact (proj1 (proj2 (proj2
           (verify_reports Examples.harris_found Examples.harris_lookup
              Examples.harris_key Examples.harris_web harris_compared)))).
Defined.

(** ** De-duplication within a scan *)

Section Scan.
Import Scraper.
Context (a : args).

Definition tag (d : sample) : result :=
  {| data := d; r_year := year a; r_age := age a; r_metal := metal a |}.

Lemma scan_snoc_raw (ds : list sample) (d : sample) :
  scan a (ds ++ [d]) = add_sample a (scan a ds) d.
Proof. unfold scan. by rewrite foldl_snoc. Qed.

(** [seen] holds the keys of the samples fed so far. *)
Lemma scan_seen (ds : list sample) (k : pystr) :
  k ∈ (scan a ds).1 ↔ k ∈ key_of <$> ds.
Proof.
  induction ds as [|d ds IH] using rev_ind.
  - unfold scan. simpl. rewrite elem_of_nil. set_solver.
  - rewrite scan_snoc_raw, fmap_app, elem_of_app. simpl.
    rewrite list_elem_of_singleton. unfold add_sample.
    destruct (decide (key_of d ∈ (scan a ds).1)) as [Hin|Hin]; simpl.
    + rewrite IH. split; [tauto|]. intros [?| ->]; [done|]. by apply IH.
    + rewrite elem_of_union, elem_of_singleton, IH. tauto.
Qed.

(** Feeding one more sample: nothing changes when its key was met
    before, otherwise the sample is appended. *)
Lemma scan_snoc (ds : list sample) (d : sample) :
  (scan a (ds ++ [d])).2
  = if decide (key_of d ∈ key_of <$> ds) then (scan a ds).2
    else (scan a ds).2 ++ [tag d].
Proof.
  rewrite scan_snoc_raw. unfold add_sample.
  destruct (decide (key_of d ∈ (scan a ds).1)) as [Hin|Hin];
    rewrite scan_seen in Hin; by rewrite decide_bool_decide,
      ?(bool_decide_eq_true_2 _ Hin), ?(bool_decide_eq_false_2 _ Hin).
Qed.

Lemma scan_sublist (ds : list sample) :
  (data <$> (scan a ds).2) `sublist_of` ds.
Proof.
  induction ds as [|d ds IH] using rev_ind; [done|].
  rewrite scan_snoc. case_decide.
  - by apply sublist_inserts_r.
  - rewrite fmap_app. simpl. by apply sublist_app.
Qed.

Lemma scan_keys (ds : list sample) (k : pystr) :
  k ∈ key_of <$> ds ↔ k ∈ key_of ∘ data <$> (scan a ds).2.
Proof.
  induction ds as [|d ds IH] using rev_ind; [done|].
  rewrite scan_snoc, fmap_app, elem_of_app. simpl.
  rewrite list_elem_of_singleton. case_decide as Hin.
  - rewrite <- IH. split; [|tauto]. by intros [?| ->].
  - rewrite fmap_app, elem_of_app. simpl.
    rewrite list_elem_of_singleton. by rewrite IH.
Qed.

Lemma scan_NoDup (ds : list sample) :
  NoDup (key_of ∘ data <$> (scan a ds).2).
Proof.
  induction ds as [|d ds IH] using rev_ind; [constructor|].
  rewrite scan_snoc. case_decide as Hin; [done|].
  rewrite fmap_app. simpl. apply NoDup_app. split; [done|]. split.
  - intros k Hk ->%list_elem_of_singleton. by apply Hin, scan_keys.
  - apply NoDup_singleton.
Qed.

Lemma scan_first (ds : list sample) (r : result) :
  r ∈ (scan a ds).2 →
  r = tag (data r)
  ∧ ∃ pre post, ds = pre ++ data r :: post
                ∧ key_of (data r) ∉ key_of <$> pre.
Proof.
  induction ds as [|d ds IH] using rev_ind.
  - by intros ?%elem_of_nil.
  - rewrite scan_snoc. case_decide as Hin.
    + intros [? (pre & post & -> & ?)]%IH. split; [done|].
      exists pre, (post ++ [d]). by rewrite <- app_assoc.
    + rewrite elem_of_app, list_elem_of_singleton.
      intros [[? (pre & post & -> & ?)]%IH | ->].
      * split; [done|]. exists pre, (post ++ [d]). by rewrite <- app_assoc.
      * split; [done|]. by exists ds, [].
Qed.

Lemma scan_duplicates (ds dups : list sample) (d : sample) :
  Forall (fun x => key_of x = key_of d) dups →
  (scan a (ds ++ d :: dups)).2 = (scan a (ds ++ [d])).2.
Proof.
  induction dups as [|x dups IH] using rev_ind; [done|].
  intros [Hdups Hx]%Forall_app. apply Forall_inv in Hx.
  replace (ds ++ d :: dups ++ [x]) with ((ds ++ d :: dups) ++ [x])
    by by rewrite <- app_assoc.
  rewrite scan_snoc, decide_True; [by apply IH|].
  simpl in Hx. rewrite Hx, fmap_app, fmap_cons. set_solver.
Qed.

(** Both scans are [scan] on the samples parsed from the tooltips they
    read. *)
Lemma foldl_record_tooltip (st : scan_state) (texts : list (option pystr)) :
  foldl (record_tooltip a) st texts
  = foldl (add_sample a) st (omap parsed texts).
Proof.
  revert st. induction texts as [|t texts IH]; intros st; [done|].
  simpl. unfold record_tooltip at 2. destruct (parsed t); simpl; apply IH.
Qed.

Lemma scrape_svg_map_scan (pg : page) :
  scrape_svg_map pg a = (scan a (omap parsed (svg_tooltips pg))).2.
Proof.
  unfold scrape_svg_map, scan, svg_tooltips.
  rewrite <- foldl_record_tooltip. f_equal.
  generalize (∅ : gset pystr, [] : list result).
  induction (filter _ (svg_paths pg)) as [|p l IH]; intros st; [done|].
  simpl. rewrite <- IH. f_equal. unfold svg_step.
  destruct (bounding_box p) as [b|]; [|done].
  destruct (Qlt_le_dec (width b) 2); [done|].
  destruct (Qlt_le_dec (height b) 2); [done|].
  by destruct (hover p).
Qed.

Lemma scrape_canvas_map_scan (pg : page) :
  scrape_canvas_map pg a = (scan a (omap parsed (canvas_tooltips pg))).2.
Proof.
  unfold scrape_canvas_map, scan, canvas_tooltips.
  destruct (canvas_box pg) as [b|]; [|done].
  rewrite <- foldl_record_tooltip. f_equal.
  generalize (∅ : gset pystr, [] : list result).
  induction (grid b) as [|[x y] l IH]; intros st; [done|].
  simpl. by rewrite <- IH.
Qed.

End Scan.


(** ** The state roll-up *)

Section Aggregation.
Import StateExport.

Definition grouped (l : list Feed.row) : list (group_key * list Feed.row) :=
  foldl (fun g r => append_to (key_of r) r g) [] l.

Lemma append_to_keys key r groups :
  (append_to key r groups).*1
  = if decide (key ∈ groups.*1) then groups.*1 else groups.*1 ++ [key].
Proof.
  induction groups as [|[k rows] groups IH].
  - cbn [append_to fmap list_fmap fst app].
    destruct (decide (key ∈ [])) as [Hin|Hin]; [|done].
    by apply elem_of_nil in Hin.
  - cbn [append_to].
    destruct (decide (k = key)) as [->|Hne];
      cbn [fmap list_fmap fst app]; fold (fmap (M:=list) (@fst group_key (list Feed.row))).
    + destruct (decide (key ∈ key :: groups.*1)) as [Hin|Hin]; [done|].
      exfalso. apply Hin. left.
    + rewrite IH.
      destruct (decide (key ∈ groups.*1)) as [Hin|Hin],
        (decide (key ∈ k :: groups.*1)) as [Hin'|Hin']; try done.
      * exfalso. apply Hin'. by right.
      * apply elem_of_cons in Hin' as [->|?]; done.
Qed.

Definition as_map (groups : list (group_key * list Feed.row))
    : gmap group_key (list Feed.row) :=
  list_to_map groups.

Lemma append_to_map key r groups :
  as_map (append_to key r groups)
  = <[key := default [] (as_map groups !! key) ++ [r]]> (as_map groups).
Proof.
  unfold as_map.
  induction groups as [|[k rows] groups IH]; simpl; [done|].
  destruct (decide (k = key)) as [->|Hne]; simpl.
  - by rewrite lookup_insert_eq, insert_insert_eq.
  - rewrite IH, lookup_insert_ne by done. by apply insert_insert_ne.
Qed.

Lemma grouped_snoc l r :
  grouped (l ++ [r]) = append_to (key_of r) r (grouped l).
Proof. unfold grouped. by rewrite foldl_snoc. Qed.

Lemma grouped_NoDup l : NoDup (grouped l).*1.
Proof.
  induction l as [|r l IH] using rev_ind; [constructor|].
  rewrite grouped_snoc, append_to_keys. case_decide as Hin; [done|].
  apply NoDup_app. split; [done|]. split; [|apply NoDup_singleton].
  by intros k Hk ->%list_elem_of_singleton.
Qed.

Lemma grouped_lookup l key :
  as_map (grouped l) !! key
  = match filter (fun r => key_of r = key) l with
    | [] => None
    | rows => Some rows
    end.
Proof.
  induction l as [|r l IH] using rev_ind; [done|].
  rewrite grouped_snoc, append_to_map, filter_app.
  destruct (decide (key_of r = key)) as [Hk|Hk].
  - rewrite Hk, lookup_insert_eq, IH, filter_cons_True, filter_nil by done.
    by destruct (filter _ l).
  - rewrite lookup_insert_ne, IH, filter_cons_False, filter_nil, app_nil_r
      by done. done.
Qed.

(** The groups: one entry per key that occurs, holding the rows of that
    key in their order. *)
Lemma grouped_spec l key rows :
  (key, rows) ∈ grouped l ↔
  rows = filter (fun r => key_of r = key) l ∧ rows ≠ [].
Proof.
  rewrite (elem_of_list_to_map (M := gmap group_key)) by apply grouped_NoDup.
  fold (as_map (grouped l)). rewrite grouped_lookup. destruct (filter _ l); naive_solver.
Qed.

Lemma omap_id_fmap (f : Feed.row -> option Q) (rows : list Feed.row) :
  omap id (f <$> rows) = omap f rows.
Proof.
  induction rows as [|r rows IH]; [done|].
  cbn. rewrite IH. by destruct (f r).
Qed.

Lemma average_spec (f : Feed.row -> option Q) (rows : list Feed.row) :
  average (omap f rows) = Spec.mean_of_present (f <$> rows).
Proof.
  unfold average, Spec.mean_of_present, mean. by rewrite omap_id_fmap.
Qed.

End Aggregation.


(** The end-to-end example of the specification: three Texas counties
    with individual premiums 700, 710 and 720. *)
Example aggregate_three_counties :
  ∃ a, StateExport.aggregate_by_state Examples.three_counties 2026 = [a]
       ∧ StateExport.individual_premium_avg a = Some 710.00%Q
       ∧ StateExport.county_count a = 3%nat
       ∧ StateExport.state_name a = lit "Texas"
       ∧ StateExport.metal_tier a = lit "Gold".
Proof. eexists. split; [vm_compute; reflexivity|]. by vm_compute. Qed.

(** ** Strings *)

Section Strings.

Lemma lstrip_head (c : N) (t : pystr) :
  isspace c = false → lstrip (c :: t) = c :: t.
Proof. intros H. simpl. by rewrite H. Qed.

Lemma lstrip_no_space (t : pystr) :
  Forall (fun c => isspace c = false) t → lstrip t = t.
Proof. destruct 1; [done|]. by apply lstrip_head. Qed.

Lemma strip_no_space (t : pystr) :
  Forall (fun c => isspace c = false) t → strip t = t.
Proof.
  intros H. unfold strip, rstrip. rewrite (lstrip_no_space t H).
  rewrite lstrip_no_space by by apply Forall_reverse.
  apply reverse_involutive.
Qed.

Lemma replace_app (old : N) (new a b : pystr) :
  replace old new (a ++ b) = replace old new a ++ replace old new b.
Proof. unfold replace. apply flat_map_app. Qed.

Lemma replace_absent (old : N) (new t : pystr) :
  Forall (fun c => c ≠ old) t → replace old new t = t.
Proof.
  unfold replace. induction 1 as [|c t Hc _ IH]; [done|].
  simpl. rewrite IH. by apply N.eqb_neq in Hc as ->.
Qed.

(** Removing the separator from joined parts concatenates the parts. *)
Lemma replace_join (sep : N) (parts : list pystr) :
  Forall (Forall (fun c => c ≠ sep)) parts →
  replace sep [] (join [sep] parts) = concat parts.
Proof.
  induction 1 as [|w ws Hw Hws IH]; [done|].
  destruct ws as [|w' ws].
  - simpl. rewrite app_nil_r. by apply replace_absent.
  - change (join [sep] (w :: w' :: ws))
      with (w ++ [sep] ++ join [sep] (w' :: ws)).
    rewrite !replace_app, IH, replace_absent by done.
    unfold replace at 1. simpl. by rewrite N.eqb_refl.
Qed.

(** Single-spaced text is left as it is by [" ".join(text.split())]. *)
Lemma join_cons_nonempty (sep w : pystr) (ws : list pystr) :
  ws ≠ [] → join sep (w :: ws) = w ++ sep ++ join sep ws.
Proof. by destruct ws. Qed.

Lemma join_split_go (cur t : pystr) :
  Format.single_spaced (bool_decide (cur ≠ [])) t = true →
  join (lit " ") (split_go cur t) = cur ++ t
  ∧ (cur ++ t ≠ [] → split_go cur t ≠ []).
Proof.
  revert cur. induction t as [|c t IH]; intros cur H.
  - simpl in H. apply bool_decide_eq_true in H.
    rewrite app_nil_r. destruct cur; [done|]. by split.
  - simpl in *. destruct (isspace c) eqn:Hc.
    + apply andb_true_iff in H as [[->%N.eqb_eq Hcur]%andb_true_iff Ht].
      apply bool_decide_eq_true in Hcur.
      destruct (IH [] Ht) as [IH1 IH2]. simpl in IH1, IH2.
      assert (t ≠ []) as Hne by by destruct t.
      destruct cur as [|x cur]; [done|]. split; [|done].
      rewrite join_cons_nonempty by auto. by rewrite IH1.
    + destruct (IH (cur ++ [c])) as [IH1 IH2].
      { rewrite bool_decide_eq_true_2; [done|]. by destruct cur. }
      rewrite <- app_assoc in IH1, IH2. simpl in IH1, IH2. by split.
Qed.

Lemma normalise_single_spaced (t : pystr) :
  Format.single_spaced false t = true → join (lit " ") (split t) = t.
Proof. intros H. by apply (join_split_go [] t). Qed.

(** Appending to single-spaced text. *)
Lemma single_spaced_app (b : bool) (t u : pystr) :
  Format.single_spaced b t = true →
  Format.single_spaced b (t ++ u) = Format.single_spaced true u.
Proof.
  revert b. induction t as [|c t IH]; intros b H; simpl in *.
  - by rewrite H.
  - destruct (isspace c).
    + apply andb_true_iff in H as [-> Ht]. simpl. by apply IH.
    + by apply IH.
Qed.

(** The state of [single_spaced] after a prefix, when the prefix is
    acceptable. *)
Fixpoint spaced_after (b : bool) (t : pystr) : option bool :=
  match t with
  | [] => Some b
  | c :: t' =>
      if isspace c
      then if (c =? 32)%N && b then spaced_after false t' else None
      else spaced_after true t'
  end.

Lemma single_spaced_after (b b' : bool) (t u : pystr) :
  spaced_after b t = Some b' →
  Format.single_spaced b (t ++ u) = Format.single_spaced b' u.
Proof.
  revert b. induction t as [|c t IH]; intros b H.
  - simpl in *. by injection H as ->.
  - cbn [spaced_after] in H. cbn [app Format.single_spaced].
    destruct (isspace c); [|by apply IH].
    destruct (c =? 32)%N, b; try done. by apply IH.
Qed.

Lemma single_spaced_word (b : bool) (w u : pystr) :
  Forall (fun c => isspace c = false) w → w ≠ [] →
  Format.single_spaced b (w ++ u) = Format.single_spaced true u.
Proof.
  intros Hw. revert b. induction Hw as [|c w Hc Hw IH]; intros b Hne; [done|].
  simpl. rewrite Hc. destruct w as [|c' w]; [done|]. by apply IH.
Qed.

Lemma single_spaced_last (b : bool) (t : pystr) :
  Format.single_spaced b t = true → t ≠ [] →
  ∃ x r, reverse t = x :: r ∧ isspace x = false.
Proof.
  revert b. induction t as [|c t IH]; intros b H Hne; [done|].
  simpl in H. rewrite reverse_cons. destruct (isspace c) eqn:Hc.
  - apply andb_true_iff in H as [_ Ht].
    destruct (IH _ Ht) as (x & r & -> & Hx); [by destruct t|].
    by exists x, (r ++ [c]).
  - destruct t as [|c' t].
    + by exists c, [].
    + destruct (IH _ H) as (x & r & -> & Hx); [done|].
      by exists x, (r ++ [c]).
Qed.

Lemma single_spaced_strip (t : pystr) :
  Format.single_spaced false t = true → t ≠ [] ∧ strip t = t.
Proof.
  intros H. assert (t ≠ []) as Hne by by destruct t.
  split; [done|]. unfold strip, rstrip.
  assert (lstrip t = t) as ->.
  { destruct t as [|c t]; [done|]. simpl in *.
    destruct (isspace c); [|done]. by rewrite andb_false_r in H. }
  destruct (single_spaced_last _ _ H Hne) as (x & r & Hr & Hx).
  rewrite Hr, lstrip_head, <- Hr by done. apply reverse_involutive.
Qed.

End Strings.

(** ** Written amounts and [parse_money] *)

Section Money.
Import Format.

Lemma digit_char_facts (d : digit) :
  isdigit (digit_char d) = true
  ∧ isspace (digit_char d) = false
  ∧ digit_value (digit_char d) = digit_val d
  ∧ digit_char d ≠ 44%N ∧ digit_char d ≠ 36%N
  ∧ digit_char d ≠ 45%N ∧ digit_char d ≠ 43%N
  ∧ lower (digit_char d) ≠ 105%N ∧ lower (digit_char d) ≠ 110%N.
Proof. by destruct d. Qed.

Lemma digitpart_digits (ds : list digit) (acc : Z) (n : nat) (rest : pystr) :
  PyFloat.digitpart acc n (map digit_char ds ++ rest)
  = PyFloat.digitpart
      (foldl (fun acc d => 10 * acc + digit_val d) acc ds)
      (n + length ds) rest.
Proof.
  revert acc n. induction ds as [|d ds IH]; intros acc n; simpl.
  - by rewrite Nat.add_0_r.
  - destruct (digit_char_facts d) as (-> & _ & -> & _).
    rewrite IH. f_equal. lia.
Qed.

(** The digits of an amount after the commas are removed. *)
Definition plain (a : amount) : pystr :=
  map digit_char (concat (dollars a))
  ++ lit "." ++ [digit_char (cents a).1; digit_char (cents a).2].

Lemma signed_plain_Forall (P : N → Prop) (a : amount) :
  P 45%N → P 46%N → (∀ d, P (digit_char d)) →
  Forall P ((if negative a then lit "-" else []) ++ plain a).
Proof.
  intros Hminus Hdot Hdigit.
  apply Forall_app. split; [by destruct (negative a); repeat constructor|].
  unfold plain. apply Forall_app. split.
  - apply Forall_forall. by intros c (d & -> & _)%list_elem_of_fmap.
  - by repeat constructor.
Qed.

Lemma cleaned_written (a : amount) :
  replace 36 [] (replace 44 [] (written a))
  = (if negative a then lit "-" else []) ++ plain a.
Proof.
  assert (replace 44 [] (written a)
          = (if negative a then lit "-" else []) ++ plain a) as ->.
  { unfold written, plain. rewrite !replace_app.
    change (lit ",") with [44%N]. rewrite replace_join.
    - rewrite <- concat_map. f_equal; [|f_equal].
      + apply replace_absent. destruct (negative a); by repeat constructor.
      + f_equal. apply replace_absent.
        repeat constructor; apply digit_char_facts.
    - apply Forall_forall. intros w (ds & -> & _)%list_elem_of_fmap.
      apply Forall_forall. intros c (d & -> & _)%list_elem_of_fmap.
      apply digit_char_facts. }
  apply replace_absent, signed_plain_Forall; [done..|].
  intros d. apply digit_char_facts.
Qed.

Lemma number_plain (neg : bool) (a : amount) :
  PyFloat.number neg (plain a)
  = Some (Fin ((if neg
                then - number_of (concat (dollars a)
                                  ++ [(cents a).1; (cents a).2])
                else number_of (concat (dollars a)
                                ++ [(cents a).1; (cents a).2])) # 100)).
Proof.
  unfold PyFloat.number, plain. rewrite digitpart_digits.
  cbn [lit app PyFloat.digitpart]. 
  change (N_of_ascii "."%char) with 46%N. cbn [isdigit in_range N.leb N.eqb].
  simpl.
  destruct (digit_char_facts (cents a).1) as (-> & _ & -> & _).
  destruct (digit_char_facts (cents a).2) as (-> & _ & -> & _).
  replace (length (concat (dollars a)) + 2)%nat
    with (S (S (length (concat (dollars a))))) by lia.
  unfold number_of. rewrite foldl_app. simpl.
  by destruct neg.
Qed.

End Money.

Section ParseMoney.
Import Format Scraper.

Lemma sign_plain (a : amount) : PyFloat.sign (plain a) = (false, plain a).
Proof. unfold plain. by destruct (concat (dollars a)) as [|[] ds]. Qed.

Lemma plain_not_a_word (a : amount) :
  ∃ c r, map lower (plain a) = c :: r ∧ c ≠ 105%N ∧ c ≠ 110%N.
Proof.
  unfold plain. destruct (concat (dollars a)) as [|d ds]; simpl.
  - by eexists _, _.
  - eexists _, _. split; [done|]. split; apply digit_char_facts.
Qed.

Lemma py_float_plain (a : amount) :
  PyFloat.py_float ((if negative a then lit "-" else []) ++ plain a)
  = Return (Fin (value a)).
Proof.
  unfold PyFloat.py_float.
  rewrite strip_no_space
    by (apply signed_plain_Forall; [done..|]; intros d; apply digit_char_facts).
  assert (PyFloat.sign ((if negative a then lit "-" else []) ++ plain a)
          = (negative a, plain a)) as ->.
  { destruct (negative a); [done|]. apply sign_plain. }
  destruct (plain_not_a_word a) as (c & r & -> & Hi & Hn).
  rewrite !bool_decide_eq_false_2 by (intros [=]; done). simpl.
  rewrite number_plain. unfold value. by destruct (negative a).
Qed.

Lemma written_nonempty (a : amount) : written a ≠ [].
Proof.
  unfold written. intros H%(f_equal length).
  rewrite !length_app in H. simpl in H. lia.
Qed.

(** [parse_money] reads a written amount, with or without the dollar
    sign, as its value. *)
Lemma parse_money_written (with_dollar : bool) (a : amount) :
  parse_money (Some ((if with_dollar then lit "$" else []) ++ written a))
  = Return (Some (Fin (value a))).
Proof.
  assert (∀ v, v ≠ [] →
            parse_money (Some v)
            = match PyFloat.py_float
                      (strip (replace 36 [] (replace 44 [] v))) with
              | Return x => Return (Some x)
              | Raise ValueError => Return None
              end) as Hne by by intros [|c v].
  rewrite Hne.
  - assert (replace 36 [] (replace 44 []
              ((if with_dollar then lit "$" else []) ++ written a))
            = replace 36 [] (replace 44 [] (written a))) as ->
      by by destruct with_dollar.
    rewrite cleaned_written.
    rewrite strip_no_space
      by (apply signed_plain_Forall; [done..|];
          intros d; apply digit_char_facts).
    by rewrite py_float_plain.
  - pose proof (written_nonempty a). destruct with_dollar; [done|].
    by destruct (written a).
Qed.

End ParseMoney.


(** ** The matcher: what a pattern takes at its first attempt *)

Section Matching.
Import Re.

(** [r] takes the text between [s0] and [s1] at its first attempt: when
    the rest of the pattern accepts what follows, that is the match. *)
Definition Takes (ic : bool) (r : re) (s0 : pystr) (caps : captures)
    (s1 : pystr) (caps1 : captures) : Prop :=
  ∀ (A : Type) (k : pystr -> captures -> option A) (a : A),
    k s1 caps1 = Some a → exec ic r s0 caps k = Some a.

Lemma takes_empty ic s caps : Takes ic Empty s caps s caps.
Proof. by intros A k a. Qed.

Lemma takes_lit ic l s0 s1 caps :
  lit_prefix ic l s0 = Some s1 → Takes ic (Lit l) s0 caps s1 caps.
Proof. intros H A k a Hk. simpl. by rewrite H. Qed.

Lemma backoff_first {A} (lo n : nat) (try : nat -> option A) (a : A) :
  (lo ≤ n)%nat → try n = Some a → backoff lo try n = Some a.
Proof.
  intros Hlo Hn. destruct n; simpl; rewrite Hn.
  - by destruct lo; [|lia].
  - apply Nat.ltb_ge in Hlo. by rewrite Hlo.
Qed.

Lemma takes_rep ic cs lo hi s0 caps (n : nat) :
  run ic cs hi s0 = n → (lo ≤ n)%nat →
  Takes ic (Rep cs lo hi) s0 caps (drop n s0) caps.
Proof. intros Hrun Hlo A k a Hk. simpl. rewrite Hrun. by apply backoff_first. Qed.

Lemma run_app ic cs (w s : pystr) :
  Forall (fun c => cset_mem ic cs c = true) w →
  match s with [] => True | c :: _ => cset_mem ic cs c = false end →
  run ic cs None (w ++ s) = length w.
Proof.
  intros Hw Hs. induction Hw as [|c w Hc Hw IH].
  - destruct s; simpl; [done|]. by rewrite Hs.
  - simpl. by rewrite Hc, IH.
Qed.

Lemma run_exact ic cs (w s : pystr) :
  Forall (fun c => cset_mem ic cs c = true) w →
  run ic cs (Some (length w)) (w ++ s) = length w.
Proof.
  intros Hw. induction Hw as [|c w Hc Hw IH].
  - by destruct s.
  - simpl. by rewrite Hc, IH.
Qed.

(** A run of characters of the set, followed by a character outside it
    or by the end of the text. *)
Lemma takes_run ic cs lo (w s : pystr) caps :
  Forall (fun c => cset_mem ic cs c = true) w →
  match s with [] => True | c :: _ => cset_mem ic cs c = false end →
  (lo ≤ length w)%nat →
  Takes ic (Rep cs lo None) (w ++ s) caps s caps.
Proof.
  intros Hw Hs Hlo. rewrite <- (drop_app_length w s) at 2.
  apply takes_rep; [|done]. by apply run_app.
Qed.

Lemma takes_exact ic cs (w s : pystr) caps :
  Forall (fun c => cset_mem ic cs c = true) w →
  Takes ic (Rep cs (length w) (Some (length w))) (w ++ s) caps s caps.
Proof.
  intros Hw. rewrite <- (drop_app_length w s) at 2.
  apply takes_rep; [|done]. by apply run_exact.
Qed.

Lemma takes_cat ic r1 r2 s0 c0 s1 c1 s2 c2 :
  Takes ic r1 s0 c0 s1 c1 → Takes ic r2 s1 c1 s2 c2 →
  Takes ic (Cat r1 r2) s0 c0 s2 c2.
Proof. intros H1 H2 A k a Hk. simpl. by apply H1, H2. Qed.

Lemma takes_group ic name r (w s : pystr) c0 c1 :
  Takes ic r (w ++ s) c0 s c1 →
  Takes ic (Group name r) (w ++ s) c0 s (<[name := w]> c1).
Proof.
  intros H A k a Hk. simpl. apply H.
  rewrite length_app, Nat.add_sub. by rewrite take_app_length.
Qed.

Lemma search_takes ic r (w s : pystr) caps :
  Takes ic r (w ++ s) ∅ s caps →
  search ic r (w ++ s)
  = Some {| matched := w; groups := caps; rest := s |}.
Proof.
  intros H.
  assert (match_here ic r (w ++ s)
          = Some {| matched := w; groups := caps; rest := s |}) as Hm.
  { apply H. by rewrite length_app, Nat.add_sub, take_app_length. }
  destruct (w ++ s); simpl; by rewrite Hm.
Qed.

End Matching.

(** ** The strict pattern on the strict format *)

Section Strict.
Import Format Scraper.

Lemma lower_not_comma (c : N) : c ≠ 44%N → lower c ≠ 44%N.
Proof.
  unfold lower, in_range. intros Hc.
  destruct (N.leb_spec 65 c), (N.leb_spec c 90), (N.leb_spec 192 c),
    (N.leb_spec c 222), (N.eqb_spec c 215); simpl; lia.
Qed.

Lemma not_comma_mem (county : pystr) :
  forallb (fun c => negb (c =? 44)%N) county = true →
  Forall (fun c => Re.cset_mem true not_comma c = true) county.
Proof.
  intros H. apply Forall_forall. intros c Hc.
  apply list_elem_of_In in Hc.
  pose proof (proj1 (forallb_forall _ _) H c Hc) as Hne.
  apply negb_true_iff, N.eqb_neq, lower_not_comma in Hne.
  unfold Re.cset_mem, not_comma.
  cbn [Re.negated Re.items existsb Re.item_mem].
  change (lower (ch ",")) with 44%N.
  by apply N.eqb_neq in Hne as ->.
Qed.

Lemma upper_letter_mem (c : N) :
  in_range 65 90 c = true → Re.cset_mem true upper_letter c = true.
Proof.
  intros H. unfold Re.cset_mem, upper_letter.
  cbn [Re.negated Re.items existsb Re.item_mem].
  change (ch "A") with 65%N. change (ch "Z") with 90%N. by rewrite H.
Qed.

Lemma upper_letter_no_space (c : N) :
  in_range 65 90 c = true → isspace c = false.
Proof.
  unfold isspace, in_range.
  intros [H1%N.leb_le H2%N.leb_le]%andb_true_iff.
  repeat (apply orb_false_intro);
    first [ apply N.eqb_neq; lia
          | apply andb_false_iff; left; apply N.leb_gt; lia
          | apply andb_false_iff; right; apply N.leb_gt; lia ].
Qed.

Lemma space_mem (ic : bool) (c : N) : Re.cset_mem ic space c = isspace c.
Proof. unfold Re.cset_mem. simpl. by rewrite orb_false_r. Qed.

Lemma takes_optional (ic : bool) (cs : Re.cset) (c : N) (s : pystr) caps :
  Re.cset_mem ic cs c = true →
  Takes ic (Re.opt cs) (c :: s) caps s caps.
Proof.
  intros Hc. apply (takes_rep ic cs 0 (Some 1%nat) (c :: s) caps 1); [|lia].
  simpl. rewrite Hc. by destruct s.
Qed.

(** A text in the strict format, with the amounts as arbitrary runs of
    amount characters. *)
Definition strict_of (county : pystr) (a b : N) (wd wi ws : pystr) : pystr :=
  county ++ lit ", " ++ [a; b]
  ++ lit " Diff (Ind - Small): $" ++ wd
  ++ lit " Individual: $" ++ wi
  ++ lit " Small Group: $" ++ ws.

Definition strict_groups (county : pystr) (a b : N) (wd wi ws : pystr)
    : Re.captures :=
  <["small_group" := ws]> (<["individual" := wi]> (<["diff" := wd]>
    (<["state" := [a; b]]> (<["county" := county]> ∅)))).

Ltac compute_lits :=
  repeat match goal with
         | |- context [lit ?s] =>
             let x := eval vm_compute in (lit s) in change (lit s) with x
         end.
Ltac take_with tac := eapply takes_cat; [ tac | cbn [drop] ].
Ltac take_lit := take_with ltac:(apply takes_lit; reflexivity).
Ltac take_spaces :=
  take_with ltac:(eapply takes_rep; [vm_compute; reflexivity | simpl; lia]).

Lemma strict_search (county : pystr) (a b : N) (wd wi ws : pystr) :
  let amount_run w :=
    Forall (fun c => Re.cset_mem true amount_char c = true) w ∧ w ≠ [] in
  county ≠ [] →
  forallb (fun c => negb (c =? 44)%N) county = true →
  in_range 65 90 a = true → in_range 65 90 b = true →
  amount_run wd → amount_run wi → amount_run ws →
  Re.search true TOOLTIP_PATTERN (strict_of county a b wd wi ws)
  = Some {| Re.matched := strict_of county a b wd wi ws;
            Re.groups := strict_groups county a b wd wi ws;
            Re.rest := [] |}.
Proof.
  intros amount_run Hne Hcounty Ha Hb [Hd Hd'] [Hi Hi'] [Hs Hs'].
  rewrite <- (app_nil_r (strict_of county a b wd wi ws)) at 1.
  apply search_takes. unfold strict_of. rewrite <- !app_assoc.
  unfold TOOLTIP_PATTERN, Re.cats. cbn [foldr].
  compute_lits. cbn [app].
  take_with ltac:(apply takes_group, takes_run;
                  [by apply not_comma_mem | reflexivity
                  | destruct county; [done | simpl; lia]]).
  take_lit.
  take_with ltac:(apply (takes_run _ _ _ [32%N]);
                  [by repeat constructor
                  | by rewrite space_mem, upper_letter_no_space
                  | simpl; lia]).
  take_with ltac:(apply (takes_group _ _ _ [a; b]),
                          (takes_exact _ _ [a; b]);
                  repeat constructor; by apply upper_letter_mem).
  take_spaces. take_lit. take_spaces. take_lit. take_spaces.
  take_with ltac:(eapply takes_rep; [vm_compute; reflexivity | simpl; lia]).
  take_spaces. take_lit. take_spaces.
  take_with ltac:(by apply takes_optional).
  take_with ltac:(apply takes_group, takes_run;
                  [done | reflexivity | destruct wd; [done | simpl; lia]]).
  take_spaces. take_lit. take_spaces.
  take_with ltac:(by apply takes_optional).
  take_with ltac:(apply takes_group, takes_run;
                  [done | reflexivity | destruct wi; [done | simpl; lia]]).
  take_spaces. take_lit. take_spaces. take_lit. take_spaces.
  take_with ltac:(by apply takes_optional).
  take_with ltac:(apply takes_group, takes_run;
                  [done | done | destruct ws; [done | simpl; lia]]).
  apply takes_empty.
Qed.

Lemma strict_groups_lookup (county : pystr) (a b : N) (wd wi ws : pystr) :
  let m := {| Re.matched := strict_of county a b wd wi ws;
              Re.groups := strict_groups county a b wd wi ws;
              Re.rest := [] |} in
  Re.group m "county" = county ∧ Re.group m "state" = [a; b]
  ∧ Re.group m "diff" = wd ∧ Re.group m "individual" = wi
  ∧ Re.group m "small_group" = ws.
Proof. unfold Re.group, strict_groups. simpl. by simplify_map_eq. Qed.

Lemma written_Forall (P : N → Prop) (a : amount) :
  P 45%N → P 44%N → P 46%N → (∀ d, P (digit_char d)) →
  Forall P (written a).
Proof.
  intros Hminus Hcomma Hdot Hdigit. unfold written.
  apply Forall_app. split; [by destruct (negative a); repeat constructor|].
  apply Forall_app. split; [|by repeat constructor].
  induction (dollars a) as [|ds [|ds' groups] IH]; [done|..].
  - simpl. apply Forall_forall. by intros c (d & -> & _)%list_elem_of_fmap.
  - change (Forall P (map digit_char ds ++ lit ","
                      ++ join (lit ",") (map (map digit_char) (ds' :: groups)))).
    apply Forall_app. split.
    + apply Forall_forall. by intros c (d & -> & _)%list_elem_of_fmap.
    + by constructor.
Qed.

Lemma written_amount_run (a : amount) :
  Forall (fun c => Re.cset_mem true amount_char c = true) (written a)
  ∧ written a ≠ [].
Proof.
  split; [|apply written_nonempty].
  apply written_Forall; try done. by intros [].
Qed.

Lemma written_no_space (a : amount) :
  Forall (fun c => isspace c = false) (written a).
Proof. apply written_Forall; try done. by intros []. Qed.

Lemma strict_single_spaced (county : pystr) (a b : N) (d i s : amount) :
  single_spaced false county = true →
  in_range 65 90 a = true → in_range 65 90 b = true →
  single_spaced false
    (strict_of county a b (written d) (written i) (written s)) = true.
Proof.
  intros Hcounty Ha%upper_letter_no_space Hb%upper_letter_no_space.
  unfold strict_of. rewrite single_spaced_app by done.
  rewrite (single_spaced_after true false (lit ", ")) by reflexivity.
  rewrite (single_spaced_word false [a; b]) by (by repeat constructor).
  rewrite (single_spaced_after true true (lit " Diff (Ind - Small): $"))
    by reflexivity.
  rewrite (single_spaced_word true (written d))
    by (apply written_no_space || apply written_nonempty).
  rewrite (single_spaced_after true true (lit " Individual: $"))
    by reflexivity.
  rewrite (single_spaced_word true (written i))
    by (apply written_no_space || apply written_nonempty).
  rewrite (single_spaced_after true true (lit " Small Group: $"))
    by reflexivity.
  rewrite <- (app_nil_r (written s)).
  by rewrite (single_spaced_word true (written s))
    by (apply written_no_space || apply written_nonempty).
Qed.

End Strict.



(** The same tooltip as the page lays it out, on three lines. *)
Example parse_tooltip_shasta_lines :
  Scraper.parse_tooltip (Some Examples.shasta_lines)
  = Scraper.parse_tooltip (Some Examples.shasta).
Proof. by vm_compute. Qed.

(** ** Where the parser departs from the specification *)

(** C7, at the failing input.  The set between [Ind] and [Small] holds the
    hyphen and the characters U+00E2, U+20AC and U+201C, not the en dash
    U+2013: on the Shasta County tooltip written with an en dash the strict
    pattern finds no match, the fallback answers, and the record has no
    difference, unlike the record of the same tooltip written with a
    hyphen.  Matching ignores case, and the tooltip written with U+00E2
    is accepted by the strict pattern. *)
Lemma en_dash_misses_the_strict_pattern :
  Re.cset_mem true Scraper.dash 8211 = false ∧
  Re.search true Scraper.TOOLTIP_PATTERN Examples.shasta_en_dash = None ∧
  Scraper.parse_tooltip (Some Examples.shasta_en_dash)
  = Return (Some {| Scraper.county := lit "Shasta County";
                    Scraper.state := lit "CA";
                    Scraper.individual_premium := Some (Fin 1414.50%Q);
                    Scraper.small_group_premium := Some (Fin 808.86%Q);
                    Scraper.difference := None |}) ∧
  Scraper.parse_tooltip (Some Examples.shasta)
  = Return (Some {| Scraper.county := lit "Shasta County";
                    Scraper.state := lit "CA";
                    Scraper.individual_premium := Some (Fin 1414.50%Q);
                    Scraper.small_group_premium := Some (Fin 808.86%Q);
                    Scraper.difference := Some (Fin 605.64%Q) |}) ∧
  Scraper.parse_tooltip (Some Examples.shasta_a_circumflex)
  = Scraper.parse_tooltip (Some Examples.shasta) ∧
  Scraper.parse_tooltip (Some Examples.shasta_lower)
  = Return (Some {| Scraper.county := lit "shasta county";
                    Scraper.state := lit "ca";
                    Scraper.individual_premium := Some (Fin 1414.50%Q);
                    Scraper.small_group_premium := Some (Fin 808.86%Q);
                    Scraper.difference := Some (Fin 605.64%Q) |}).
Proof. split_and!; by vm_compute. Qed.

(** C2, at the failing input.  The pattern of the fallback also matches a
    comma on its own, so the comma after the county name is the first
    token: on a tooltip the strict pattern rejects, with the three amounts
    47.62, 700.98 and 748.60, the tokens are the comma and the three
    amounts, the last two become the individual and the small-group
    premium, and the difference, read from the comma, is absent.  On the
    tooltip of the specification with two amounts the tokens are three. *)
Lemma fallback_reads_the_comma_as_first_token :
  Re.search true Scraper.TOOLTIP_PATTERN Examples.travis_three = None ∧
  Re.findall false Scraper.NUMBER_PATTERN "1" Examples.travis_three
  = [lit ","; lit "47.62"; lit "700.98"; lit "748.60"] ∧
  Scraper.parse_money (Some (lit ",")) = Return None ∧
  Scraper.parse_tooltip (Some Examples.travis_three)
  = Return (Some {| Scraper.county := lit "Travis County";
                    Scraper.state := lit "TX";
                    Scraper.individual_premium := Some (Fin 700.98%Q);
                    Scraper.small_group_premium := Some (Fin 748.60%Q);
                    Scraper.difference := None |}) ∧
  Re.findall false Scraper.NUMBER_PATTERN "1" Examples.travis
  = [lit ","; lit "700.98"; lit "748.60"] ∧
  Scraper.parse_tooltip (Some Examples.travis)
  = Return (Some {| Scraper.county := lit "Travis County";
                    Scraper.state := lit "TX";
                    Scraper.individual_premium := Some (Fin 700.98%Q);
                    Scraper.small_group_premium := Some (Fin 748.60%Q);
                    Scraper.difference := None |}).
Proof. split_and!; by vm_compute. Qed.

(** [parse_tooltip] sees a text only through its whitespace-normalised
    form: a text laid out on several lines, or with runs of blanks, is
    parsed as the single-spaced text it normalises to. *)
Lemma parse_tooltip_up_to_whitespace (raw text : pystr) :
  Format.single_spaced false text = true →
  join (lit " ") (split raw) = text →
  Scraper.parse_tooltip (Some raw) = Scraper.parse_tooltip (Some text).
Proof.
  intros Hspaced Hraw.
  pose proof (normalise_single_spaced text Hspaced) as Htext.
  destruct text as [|c text]; [discriminate Hspaced|].
  destruct raw as [|r raw]; [discriminate Hraw|].
  unfold Scraper.parse_tooltip. rewrite Hraw, Htext. reflexivity.
Qed.


(** * Further properties of the scripts *)

(** ** [filter_data] and the roll-up *)

Section Filtering.
Import CountyExport.

(** What each optional argument of [filter_data] asks of a row: nothing
    when the argument is absent or falsy. *)
Definition year_ok (year : option Z) (r : Feed.row) : Prop :=
  match year with
  | Some y => y ≠ 0 → Feed.year r = y - 2000
  | None => True
  end.

Definition age_ok (age : option Z) (r : Feed.row) : Prop :=
  match age with
  | Some a => a ≠ 0 → Feed.age r = a
  | None => True
  end.

Definition metal_ok (metal : option pystr) (r : Feed.row) : Prop :=
  match metal with
  | Some m => m ≠ [] → map lower (Feed.lvl r) = map lower m
  | None => True
  end.

Lemma filter_year_spec (data : list Feed.row) (year : option Z) (r : Feed.row) :
  r ∈ filter_data data year None None ↔ r ∈ data ∧ year_ok year r.
Proof.
  unfold filter_data, year_ok. cbv zeta.
  destruct year as [y|]; [|tauto].
  destruct (Z.eqb_spec y 0) as [->|Hy]; [intuition (try done)|].
  rewrite list_elem_of_filter. tauto.
Qed.

Lemma filter_data_steps (data : list Feed.row) (year age : option Z)
    (metal : option pystr) :
  filter_data data year age metal
  = filter_data (filter_data (filter_data data year None None) None age None)
      None None metal.
Proof. reflexivity. Qed.

Lemma filter_age_spec (data : list Feed.row) (age : option Z) (r : Feed.row) :
  r ∈ filter_data data None age None ↔ r ∈ data ∧ age_ok age r.
Proof.
  unfold filter_data, age_ok. cbv zeta.
  destruct age as [a|]; [|tauto].
  destruct (Z.eqb_spec a 0) as [->|Ha]; [intuition (try done)|].
  rewrite list_elem_of_filter. tauto.
Qed.

Lemma filter_metal_spec (data : list Feed.row) (metal : option pystr)
    (r : Feed.row) :
  r ∈ filter_data data None None metal ↔ r ∈ data ∧ metal_ok metal r.
Proof.
  unfold filter_data, metal_ok. cbv zeta.
  destruct metal as [[|c m]|]; [intuition (try done)| |tauto].
  rewrite list_elem_of_filter. split.
  - intros [Hm ?]. split; [done | by intros _].
  - intros [? Hm]. split; [by apply Hm | done].
Qed.

Lemma filter_data_sublist (data : list Feed.row) (year age : option Z)
    (metal : option pystr) :
  filter_data data year age metal `sublist_of` data.
Proof.
  unfold filter_data.
  destruct year as [y|]; [destruct (y =? 0)|];
    (destruct age as [a|]; [destruct (a =? 0)|]);
    destruct metal as [[|c m]|];
    repeat (etrans; [apply sublist_filter|]); done.
Qed.

End Filtering.

(** X1. [filter_data] keeps, in their order, exactly the rows that meet
    every filter given: the year (as an offset from 2000), the age, the
    metal tier compared without regard to case; an argument that is absent
    or falsy (no year, age 0, empty metal) filters nothing. *)
Theorem filter_data_selects (data : list Feed.row) (year age : option Z)
    (metal : option pystr) :
  CountyExport.filter_data data year age metal `sublist_of` data ∧
  (∀ r, r ∈ CountyExport.filter_data data year age metal ↔
        r ∈ data ∧ year_ok year r ∧ age_ok age r ∧ metal_ok metal r) ∧
  CountyExport.filter_data data None None None = data ∧
  CountyExport.filter_data data (Some 0) (Some 0) (Some []) = data.
Proof.
  split_and!; [apply filter_data_sublist| |done..].
  intros r. rewrite filter_data_steps.
  rewrite filter_metal_spec, filter_age_spec, filter_year_spec. tauto.
Qed.

Section RollUp.
Import StateExport.

Fixpoint total_rows (groups : list (group_key * list Feed.row)) : nat :=
  match groups with
  | [] => O
  | g :: groups' => (length g.2 + total_rows groups')%nat
  end.

Lemma append_to_total key r groups :
  total_rows (append_to key r groups) = S (total_rows groups).
Proof.
  induction groups as [|[k rows] groups IH]; [done|].
  cbn [append_to]. destruct (decide (k = key)); cbn [total_rows snd].
  - rewrite length_app. simpl. lia.
  - rewrite IH. lia.
Qed.

Lemma grouped_total (l : list Feed.row) : total_rows (grouped l) = length l.
Proof.
  induction l as [|r l IH] using rev_ind; [done|].
  rewrite grouped_snoc, append_to_total, IH, length_app. simpl. lia.
Qed.

Lemma summarise_total (year : Z) groups :
  sum_list (county_count <$> (summarise year <$> groups))
  = total_rows groups.
Proof.
  induction groups as [|[[[? ?] ?] rows] groups IH]; [done|].
  rewrite !fmap_cons. cbn [total_rows snd]. rewrite <- IH. reflexivity.
Qed.

Lemma summarise_count (year : Z) (g : group_key * list Feed.row) :
  county_count (summarise year g) = length g.2.
Proof. by destruct g as [[[? ?] ?] ?]. Qed.

Lemma grouped_nil_inv (l : list Feed.row) : grouped l = [] → l = [].
Proof.
  intros H. pose proof (grouped_total l) as Ht. rewrite H in Ht.
  by destruct l.
Qed.

End RollUp.

(** X2. [aggregate_by_state] reads only the records of the year asked
    for, each of them once: the county counts of its entries add up to the
    number of records of that year, every entry counts at least one
    county, and filtering the data by that year beforehand changes
    nothing. *)
Theorem aggregate_by_state_counts (data : list Feed.row) (year : Z) :
  sum_list (StateExport.county_count
              <$> StateExport.aggregate_by_state data year)
  = length (filter (fun r => Feed.year r = year - 2000) data) ∧
  Forall (fun a => (1 ≤ StateExport.county_count a)%nat)
         (StateExport.aggregate_by_state data year) ∧
  StateExport.aggregate_by_state
    (CountyExport.filter_data data (Some year) None None) year
  = StateExport.aggregate_by_state data year.
Proof.
  unfold StateExport.aggregate_by_state. split_and!.
  - rewrite summarise_total. apply grouped_total.
  - apply Forall_fmap, Forall_forall. intros [key rows] Hg.
    apply grouped_spec in Hg as [_ Hne].
    unfold compose. rewrite summarise_count. cbn [snd].
    destruct rows; [done | cbn [length]; lia].
  - unfold CountyExport.filter_data.
    destruct (Z.eqb_spec year 0) as [->|Hy]; [done|].
    cbv zeta. by rewrite list_filter_filter_l.
Qed.

Lemma aggregate_by_state_empty (data : list Feed.row) (year : Z) :
  StateExport.aggregate_by_state data year = [] ↔
  Forall (fun r => Feed.year r ≠ year - 2000) data.
Proof.
  unfold StateExport.aggregate_by_state. split.
  - intros H%fmap_nil_inv%grouped_nil_inv.
    apply Forall_forall. intros r Hr Hy.
    assert (r ∈ filter (fun r => Feed.year r = year - 2000) data) as Hin
      by by apply list_elem_of_filter.
    rewrite H in Hin. by apply elem_of_nil in Hin.
  - intros H.
    assert (filter (fun r => Feed.year r = year - 2000) data = []) as ->;
      [|done].
    induction H as [|r l Hr _ IH]; [done|].
    by rewrite filter_cons_False.
Qed.

(** X3. The roll-up is empty exactly when no record of the feed belongs
    to the year asked for, and then [export_states_csv] writes no file and
    reports zero rows; otherwise it reports one row per entry of the
    roll-up. *)
Theorem no_records_no_state_file (data : list Feed.row) (year : Z)
    (path : pystr) (fs : Csv.files) :
  let rollup := StateExport.aggregate_by_state data year in
  (rollup = [] ↔ Forall (fun r => Feed.year r ≠ year - 2000) data) ∧
  (Forall (fun r => Feed.year r ≠ year - 2000) data →
   StateExport.export_states_csv rollup path fs = (fs, O)) ∧
  (StateExport.export_states_csv rollup path fs).2 = length rollup.
Proof.
  intros rollup. split_and!.
  - apply aggregate_by_state_empty.
  - intros H. subst rollup.
    by rewrite (proj2 (aggregate_by_state_empty data year) H).
  - destruct rollup; [done|].
    unfold StateExport.export_states_csv. cbn [snd]. apply sorted_length.
Qed.

(** ** Rounding and means *)

Section Means.
Import StateExport.
Open Scope Q_scope.

Lemma round_half_even_close (y : Q) :
  (2 * Z.abs (round_half_even y * Zpos (Qden y) - Qnum y) <= Zpos (Qden y))%Z.
Proof.
  unfold round_half_even.
  pose proof (Z.div_mod (Qnum y) (Zpos (Qden y)) ltac:(done)) as Hdm.
  pose proof (Z.mod_pos_bound (Qnum y) (Zpos (Qden y)) ltac:(done)) as Hb.
  set (d := Zpos (Qden y)) in *. set (q := (Qnum y / d)%Z) in *.
  set (r := (Qnum y mod d)%Z) in *.
  destruct (Z.compare_spec (2 * r) d); [destruct (Z.even q)| |]; nia.
Qed.

Lemma round2_close (x : Q) : Qabs (round2 x - x) <= 1 # 200.
Proof.
  pose proof (round_half_even_close (x * 100)) as H.
  unfold round2. set (z := round_half_even (x * 100)) in *.
  destruct x as [a b]. unfold Qle, Qabs, Qminus, Qplus, Qopp in *.
  simpl in *. rewrite Pos.mul_1_r in H. nia.
Qed.

Lemma sum_bounds (lo hi : Q) (vals : list Q) :
  Forall (fun v => lo <= v <= hi) vals →
  lo * inject_Z (Z.of_nat (length vals)) <= foldr Qplus 0 vals
  ∧ foldr Qplus 0 vals <= hi * inject_Z (Z.of_nat (length vals)).
Proof.
  induction 1 as [|v vals [Hlo Hhi] _ [IH1 IH2]].
  - simpl. split; rewrite Qmult_0_r; apply Qle_refl.
  - cbn [foldr length]. rewrite Nat2Z.inj_succ, <- Z.add_1_r, inject_Z_plus.
    rewrite !Qmult_plus_distr_r, !Qmult_1_r.
    split; rewrite (Qplus_comm _ lo) || rewrite (Qplus_comm _ hi);
      by apply Qplus_le_compat.
Qed.

Lemma mean_bounds (lo hi : Q) (vals : list Q) :
  vals ≠ [] → Forall (fun v => lo <= v <= hi) vals →
  lo <= mean vals <= hi.
Proof.
  intros Hne [H1 H2]%sum_bounds. unfold mean.
  assert (0 < inject_Z (Z.of_nat (length vals))) as Hpos.
  { destruct vals; [done|]. unfold Qlt. simpl. lia. }
  split.
  - by apply Qle_shift_div_l.
  - by apply Qle_shift_div_r.
Qed.

End Means.



(** ** The order of the rows written *)

Section Order.

Lemma ltb_irrefl (a : pystr) : ltb a a = false.
Proof.
  induction a as [|x a IH]; [done|]. simpl.
  by rewrite N.ltb_irrefl, N.eqb_refl, IH.
Qed.

Lemma ltb_trans (a b c : pystr) :
  ltb a b = true → ltb b c = true → ltb a c = true.
Proof.
  revert b c. induction a as [|x a IH]; intros [|y b] [|z c]; try done.
  simpl. intros Hab Hbc.
  apply orb_true_iff in Hab as [Hxy%N.ltb_lt|[->%N.eqb_eq Hab]%andb_true_iff];
    apply orb_true_iff in Hbc as [Hyz%N.ltb_lt|[Hyz%N.eqb_eq Hbc]%andb_true_iff];
    apply orb_true_iff.
  - left. apply N.ltb_lt. lia.
  - left. apply N.ltb_lt. lia.
  - left. by apply N.ltb_lt.
  - right. subst z. rewrite N.eqb_refl. simpl. by apply (IH b).
Qed.

Lemma ltb_connected (a b : pystr) :
  ltb a b = false → ltb b a = false → a = b.
Proof.
  revert b. induction a as [|x a IH]; intros [|y b]; try done.
  simpl. intros [Hxy Hab]%orb_false_iff [Hyx Hba]%orb_false_iff.
  apply N.ltb_ge in Hxy, Hyx. assert (x = y) as -> by lia.
  rewrite N.eqb_refl in Hab, Hba. f_equal. by apply IH.
Qed.

(** A strict total order on keys, as a boolean [<]. *)
Record strict_total {K : Type} (lt : K -> K -> bool) : Prop := {
  st_irrefl : ∀ a, lt a a = false;
  st_trans : ∀ a b c, lt a b = true → lt b c = true → lt a c = true;
  st_connected : ∀ a b, lt a b = false → lt b a = false → a = b
}.

Lemma ltb_strict_total : strict_total ltb.
Proof. split; [apply ltb_irrefl | apply ltb_trans | apply ltb_connected]. Qed.

Lemma Zltb_strict_total : strict_total Z.ltb.
Proof.
  split.
  - apply Z.ltb_irrefl.
  - intros a b c ?%Z.ltb_lt ?%Z.ltb_lt. apply Z.ltb_lt. lia.
  - intros a b ?%Z.ltb_ge ?%Z.ltb_ge. lia.
Qed.

(** The lexicographic order on pairs. *)
Definition lex {K1 K2 : Type} `{EqDecision K1} (lt1 : K1 -> K1 -> bool)
    (lt2 : K2 -> K2 -> bool) (a b : K1 * K2) : bool :=
  lt1 a.1 b.1 || (bool_decide (a.1 = b.1) && lt2 a.2 b.2).

Lemma lex_strict_total {K1 K2 : Type} `{EqDecision K1}
    (lt1 : K1 -> K1 -> bool) (lt2 : K2 -> K2 -> bool) :
  strict_total lt1 → strict_total lt2 → strict_total (lex lt1 lt2).
Proof.
  intros [I1 T1 C1] [I2 T2 C2]. unfold lex. split.
  - intros [a1 a2]. simpl. by rewrite I1, I2, andb_false_r.
  - intros [a1 a2] [b1 b2] [c1 c2]. simpl. intros Hab Hbc.
    apply orb_true_iff in Hab as [Hab|[->%bool_decide_eq_true Hab]%andb_true_iff];
      apply orb_true_iff in Hbc as [Hbc|[Hbc%bool_decide_eq_true Hbc']%andb_true_iff];
      apply orb_true_iff.
    + left. by apply (T1 _ b1).
    + left. by subst c1.
    + by left.
    + right. subst c1. rewrite bool_decide_eq_true_2 by done. simpl.
      by apply (T2 _ b2).
  - intros [a1 a2] [b1 b2]. simpl.
    intros [Hab Hab']%orb_false_iff [Hba Hba']%orb_false_iff.
    assert (a1 = b1) as -> by by apply C1.
    rewrite bool_decide_eq_true_2 in Hab', Hba' by done. simpl in *.
    f_equal. by apply C2.
Qed.

Lemma lt2_strict_total : strict_total Csv.lt2.
Proof. apply (lex_strict_total ltb ltb); apply ltb_strict_total. Qed.

Lemma lt3_strict_total : strict_total Csv.lt3.
Proof.
  pose proof (lex_strict_total (lex ltb Z.ltb) ltb
                (lex_strict_total ltb Z.ltb ltb_strict_total
                   Zltb_strict_total) ltb_strict_total) as [I T C].
  assert (∀ a b, Csv.lt3 a b = lex (lex ltb Z.ltb) ltb a b) as Heq.
  { intros [[a1 a2] a3] [[b1 b2] b3]. unfold Csv.lt3, lex. simpl.
    destruct (ltb a1 b1) eqn:H1; [done|]. simpl.
    destruct (decide (a1 = b1)) as [->|Hne].
    - rewrite !bool_decide_eq_true_2 by done. simpl.
      destruct (a2 <? b2) eqn:H2; [done|]. simpl.
      destruct (Z.eqb_spec a2 b2) as [->|Hne2].
      + by rewrite bool_decide_eq_true_2.
      + rewrite bool_decide_eq_false_2; [done|]. congruence.
    - rewrite !bool_decide_eq_false_2; [done| |done]. congruence. }
  split.
  - intros a. rewrite Heq. apply I.
  - intros a b c. rewrite !Heq. apply T.
  - intros a b. rewrite !Heq. apply C.
Qed.

Context {A K : Type} `{EqDecision K} (lt : K -> K -> bool) (key : A -> K).
Context (Hlt : strict_total lt).

Let before (x y : A) : bool := lt (key x) (key y).

Lemma insert_by_sorted (x : A) (l : list A) :
  StronglySorted (fun a b => before b a = false) l →
  StronglySorted (fun a b => before b a = false) (Csv.insert_by before x l).
Proof.
  destruct Hlt as [I T C]. unfold before.
  induction 1 as [|y l Hl IH Hy]; simpl.
  - repeat constructor.
  - destruct (lt (key y) (key x)) eqn:Hyx.
    + constructor; [done|].
      rewrite insert_by_perm. constructor; [|done].
      destruct (lt (key x) (key y)) eqn:Hxy; [|done].
      pose proof (T _ _ _ Hyx Hxy) as Hc. by rewrite I in Hc.
    + constructor; [by constructor|]. constructor; [done|].
      eapply Forall_impl; [exact Hy|]. simpl. intros z Hzy.
      destruct (lt (key z) (key x)) eqn:Hzx; [|done].
      destruct (lt (key x) (key y)) eqn:Hxy.
      * by rewrite (T _ _ _ Hzx Hxy) in Hzy.
      * rewrite (C _ _ Hxy Hyx) in Hzx. congruence.
Qed.

Lemma sorted_sorted (l : list A) :
  StronglySorted (fun a b => before b a = false) (Csv.sorted before l).
Proof.
  induction l as [|x l IH]; [constructor|].
  change (Csv.sorted before (x :: l))
    with (Csv.insert_by before x (Csv.sorted before l)).
  by apply insert_by_sorted.
Qed.

Lemma insert_by_stable (x : A) (l : list A) (k : K) :
  filter (fun a => key a = k) (Csv.insert_by before x l)
  = filter (fun a => key a = k) (x :: l).
Proof.
  destruct Hlt as [I T C]. unfold before.
  induction l as [|y l IH]; [done|]. simpl.
  destruct (lt (key y) (key x)) eqn:Hyx; [|done].
  rewrite !filter_cons, IH, !filter_cons.
  destruct (decide (key y = k)) as [Hy|Hy], (decide (key x = k)) as [Hx|Hx];
    try done.
  rewrite Hy, Hx, I in Hyx. done.
Qed.

Lemma sorted_stable (l : list A) (k : K) :
  filter (fun a => key a = k) (Csv.sorted before l)
  = filter (fun a => key a = k) l.
Proof.
  induction l as [|x l IH]; [done|].
  change (Csv.sorted before (x :: l))
    with (Csv.insert_by before x (Csv.sorted before l)).
  by rewrite insert_by_stable, !filter_cons, IH.
Qed.

End Order.

(** X5. On a non-empty list [export_counties_csv] replaces the file at
    the output path by the header followed by one row of ten cells per
    record: the records are those of the input, each once, in
    non-decreasing order of (state abbreviation, county name), records
    with equal keys keeping their input order. *)
Theorem export_counties_csv_rows
    (r : Feed.row) (data : list Feed.row) (path : pystr) (fs : Csv.files) :
  let key := fun x : Feed.row => (Feed.st x, Feed.n x) in
  ∃ sorted_data,
    CountyExport.export_counties_csv (r :: data) path fs
    = (<[path := Csv.header CountyExport.fieldnames
                 :: map CountyExport.csv_row sorted_data]> fs,
       S (length data))
    ∧ sorted_data ≡ₚ r :: data
    ∧ StronglySorted (fun a b => Csv.lt2 (key b) (key a) = false) sorted_data
    ∧ (∀ k, filter (fun a => key a = k) sorted_data
            = filter (fun a => key a = k) (r :: data))
    ∧ Forall (fun row => length row = length CountyExport.fieldnames)
             (map CountyExport.csv_row sorted_data).
Proof.
  intros key. eexists. split_and!.
  - unfold CountyExport.export_counties_csv, Csv.write.
    rewrite sorted_length. reflexivity.
  - apply sorted_perm.
  - apply (sorted_sorted Csv.lt2 key lt2_strict_total).
  - apply (sorted_stable Csv.lt2 key lt2_strict_total).
  - apply Forall_forall. intros row (x & -> & _)%list_elem_of_fmap.
    reflexivity.
Qed.

(** X6. On a non-empty list [export_states_csv] replaces the file at the
    output path by the header followed by one row of nine cells per entry:
    the entries are those of the input, each once, in non-decreasing order
    of (state abbreviation, age, metal tier), entries with equal keys
    keeping their input order. *)
Theorem export_states_csv_rows
    (a : StateExport.aggregate) (data : list StateExport.aggregate)
    (path : pystr) (fs : Csv.files) :
  let key := fun x : StateExport.aggregate =>
    (StateExport.state_abbr x, StateExport.age x, StateExport.metal_tier x) in
  ∃ sorted_data,
    StateExport.export_states_csv (a :: data) path fs
    = (<[path := Csv.header StateExport.fieldnames
                 :: map StateExport.csv_row sorted_data]> fs,
       S (length data))
    ∧ sorted_data ≡ₚ a :: data
    ∧ StronglySorted (fun x y => Csv.lt3 (key y) (key x) = false) sorted_data
    ∧ (∀ k, filter (fun x => key x = k) sorted_data
            = filter (fun x => key x = k) (a :: data))
    ∧ Forall (fun row => length row = length StateExport.fieldnames)
             (map StateExport.csv_row sorted_data).
Proof.
  intros key. eexists. split_and!.
  - unfold StateExport.export_states_csv, Csv.write.
    rewrite sorted_length. reflexivity.
  - apply sorted_perm.
  - apply (sorted_sorted Csv.lt3 key lt3_strict_total).
  - apply (sorted_stable Csv.lt3 key lt3_strict_total).
  - apply Forall_forall. intros row (x & -> & _)%list_elem_of_fmap.
    reflexivity.
Qed.

(** X7. On a non-empty list [write_csv] replaces the file at the output
    path by the header followed by one row of nine cells per result, in
    non-decreasing order of (state, county), results with equal keys
    keeping their input order; the [fips] cell of every row is empty, and
    no other file is touched. *)
Theorem write_csv_rows
    (r : Scraper.result) (results : list Scraper.result)
    (path : pystr) (fs : Csv.files) :
  let key := fun x : Scraper.result =>
    (Scraper.state (Scraper.data x), Scraper.county (Scraper.data x)) in
  ∃ sorted_results,
    Scraper.write_csv (r :: results) path fs
    = <[path := Csv.header Scraper.fieldnames
                :: map Scraper.csv_row sorted_results]> fs
    ∧ sorted_results ≡ₚ r :: results
    ∧ StronglySorted (fun x y => Csv.lt2 (key y) (key x) = false)
        sorted_results
    ∧ (∀ k, filter (fun x => key x = k) sorted_results
            = filter (fun x => key x = k) (r :: results))
    ∧ Forall (fun row => length row = length Scraper.fieldnames
                         ∧ row !! 2%nat = Some (Csv.CStr []))
             (map Scraper.csv_row sorted_results)
    ∧ (∀ other, other ≠ path →
                Scraper.write_csv (r :: results) path fs !! other
                = fs !! other).
Proof.
  intros key. eexists. split_and!.
  - reflexivity.
  - apply sorted_perm.
  - apply (sorted_sorted Csv.lt2 key lt2_strict_total).
  - apply (sorted_stable Csv.lt2 key lt2_strict_total).
  - apply Forall_forall. intros row (x & -> & _)%list_elem_of_fmap.
    by split.
  - intros other Hne. unfold Scraper.write_csv, Csv.write.
    apply (lookup_insert_ne (M := gmap pystr)). congruence.
Qed.

(** ** The county export of a selection *)

(** X8. Exporting the rows [filter_data] selects for a year and an age
    (both given and non-zero, any metal filter): the count returned is the
    number of rows selected; when none is selected the file system is left
    as it was; otherwise the file written holds the header and one row per
    selected row, and every such row shows the requested year in its year
    column (the feed's offset added back to 2000) and the requested age in
    its age column. *)
Theorem county_export_of_year_and_age
    (data : list Feed.row) (year age : Z) (metal : option pystr)
    (path : pystr) (fs : Csv.files) :
  year ≠ 0 → age ≠ 0 →
  let selected := CountyExport.filter_data data (Some year) (Some age) metal in
  let out := CountyExport.export_counties_csv selected path fs in
  out.2 = length selected ∧
  (selected = [] → out.1 = fs) ∧
  (selected ≠ [] →
   ∃ rows,
     out.1 !! path = Some (Csv.header CountyExport.fieldnames :: rows)
     ∧ length rows = length selected
     ∧ Forall (fun row => row !! 7%nat = Some (Csv.CInt year)
                          ∧ row !! 8%nat = Some (Csv.CInt age)) rows).
Proof.
  intros Hyear Hage selected out.
  assert (∀ r, r ∈ selected → Feed.year r = year - 2000 ∧ Feed.age r = age)
    as Hsel.
  { intros r Hr. unfold selected in Hr. rewrite filter_data_steps in Hr.
    apply filter_metal_spec in Hr as [Hr _].
    apply filter_age_spec in Hr as [Hr Ha].
    apply filter_year_spec in Hr as [_ Hy].
    split; [by apply Hy | by apply Ha]. }
  subst out. destruct selected as [|r l] eqn:Hl; [done|].
  split_and!; [|done|].
  - unfold CountyExport.export_counties_csv. cbn [snd].
    by rewrite sorted_length.
  - intros _. eexists. split_and!.
    + unfold CountyExport.export_counties_csv, Csv.write. cbn [fst].
      apply (lookup_insert_eq (M := gmap pystr)).
    + by rewrite length_map, sorted_length.
    + apply Forall_forall. intros row (x & -> & Hx)%list_elem_of_fmap.
      rewrite sorted_perm in Hx. apply Hsel in Hx as [Hy Ha].
      unfold CountyExport.csv_row. cbn [lookup list_lookup].
      rewrite Hy, Ha. split; f_equal; f_equal; lia.
Qed.

Lemma county_export_of_year_and_age_witness :
  (CountyExport.export_counties_csv
     (CountyExport.filter_data Examples.two_counties (Some 2026) (Some 50)
        (Some (lit "GOLD")))
     (lit "counties.csv") ∅).2 = 2%nat.
Proof.
  exact (proj1 (county_export_of_year_and_age Examples.two_counties 2026 50
                  (Some (lit "GOLD")) (lit "counties.csv") ∅
                  ltac:(lia) ltac:(lia))).
Defined.

(** ** What a scrape returns *)

Section Scrape.
Import Scraper.
Context (a : args).

(** A result that comes from a hover: the text shown and where. *)
Definition from_path (pg : page) (text : pystr) : Prop :=
  ∃ p b, p ∈ svg_paths pg ∧ bounding_box p = Some b
         ∧ (2 <= width b)%Q ∧ (2 <= height b)%Q
         ∧ hover p = HoverOk ∧ path_tooltip p = Some text.

Definition from_grid (pg : page) (text : pystr) : Prop :=
  ∃ b x y, canvas_box pg = Some b ∧ (x, y) ∈ grid b
           ∧ tooltip_at pg x y = Some text.

Lemma length_omap_le {A B} (f : A → option B) (l : list A) :
  (length (omap f l) ≤ length l)%nat.
Proof.
  induction l as [|x l IH]; [done|]. csimpl. destruct (f x); csimpl; lia.
Qed.

Lemma parsed_Some (t : option pystr) (d : sample) :
  parsed t = Some d →
  ∃ text, t = Some text ∧ text ≠ [] ∧ parse_tooltip (Some text) = Return (Some d).
Proof.
  destruct t as [text|]; [|discriminate].
  destruct text as [|c text]; [discriminate|].
  intros H. exists (c :: text). split; [reflexivity|]. split; [intros [=]|].
  revert H. unfold parsed.
  destruct (parse_tooltip _) as [[d'|]|]; congruence.
Qed.

Lemma svg_tooltips_from (pg : page) (text : pystr) :
  Some text ∈ svg_tooltips pg → from_path pg text.
Proof.
  unfold svg_tooltips. intros (p & Ht & Hp)%list_elem_of_fmap.
  apply list_elem_of_filter in Hp as [_ Hp].
  destruct (bounding_box p) as [b|] eqn:Hb; [|done].
  destruct (Qlt_le_dec (width b) 2); [done|].
  destruct (Qlt_le_dec (height b) 2); [done|].
  destruct (hover p) eqn:Hh; try done.
  by exists p, b.
Qed.

Lemma canvas_tooltips_from (pg : page) (text : pystr) :
  Some text ∈ canvas_tooltips pg → from_grid pg text.
Proof.
  unfold canvas_tooltips.
  destruct (canvas_box pg) as [b|] eqn:Hb; [|by intros ?%elem_of_nil].
  intros ([x y] & Ht & Hp)%list_elem_of_fmap. by exists b, x, y.
Qed.

Lemma scan_results (texts : list (option pystr)) (r : result) :
  r ∈ (scan a (omap parsed texts)).2 →
  r = tag a (data r)
  ∧ ∃ text, Some text ∈ texts ∧ text ≠ []
            ∧ parse_tooltip (Some text) = Return (Some (data r)).
Proof.
  intros Hr. split; [by apply scan_first in Hr as [? _]|].
  assert (data r ∈ omap parsed texts) as Hd.
  { eapply elem_of_sublist; [|apply scan_sublist].
    by apply list_elem_of_fmap_2. }
  apply list_elem_of_omap in Hd as (t & Ht & (text & -> & ? & ?)%parsed_Some).
  by exists text.
Qed.

Lemma scan_length (texts : list (option pystr)) :
  (length (scan a (omap parsed texts)).2 ≤ length texts)%nat.
Proof.
  trans (length (omap parsed texts)).
  - rewrite <- (length_fmap data). apply sublist_length, scan_sublist.
  - apply length_omap_le.
Qed.

End Scrape.

(** X9. Whatever the page answers, the list [scrape_map] returns has no
    two entries with the same key; every entry carries the year, age and
    metal of the arguments; every entry is what [parse_tooltip] returns on
    a non-empty tooltip text that was shown either after a successful
    hover of an SVG path at least two pixels wide and high, or at a point
    of the canvas grid; and there are no more entries than paths, or than
    grid points. *)
Theorem scrape_map_results (pg : Scraper.page) (a : Scraper.args) :
  let out := Scraper.scrape_map pg a in
  NoDup (Scraper.key_of ∘ Scraper.data <$> out) ∧
  Forall (fun r => Scraper.r_year r = Scraper.year a
                   ∧ Scraper.r_age r = Scraper.age a
                   ∧ Scraper.r_metal r = Scraper.metal a) out ∧
  Forall (fun r => ∃ text,
            (from_path pg text ∨ from_grid pg text) ∧ text ≠ []
            ∧ Scraper.parse_tooltip (Some text)
              = Return (Some (Scraper.data r))) out ∧
  ((length out ≤ length (Scraper.svg_paths pg))%nat
   ∨ ∃ b, Scraper.canvas_box pg = Some b
          ∧ (length out ≤ length (Scraper.grid b))%nat).
Proof.
  intros out.
  assert (out = Scraper.scrape_svg_map pg a
          ∨ out = Scraper.scrape_canvas_map pg a) as [Hout|Hout].
  { unfold out, Scraper.scrape_map. cbv zeta.
    repeat case_match; auto. }
  - rewrite Hout, scrape_svg_map_scan. split_and!.
    + apply scan_NoDup.
    + apply Forall_forall. intros r [-> _]%scan_results. done.
    + apply Forall_forall. intros r [_ (text & Ht & ? & ?)]%scan_results.
      exists text. split; [|done]. left. by apply svg_tooltips_from.
    + left. etrans; [apply scan_length|].
      unfold Scraper.svg_tooltips. rewrite length_map.
      apply length_filter.
  - rewrite Hout, scrape_canvas_map_scan. split_and!.
    + apply scan_NoDup.
    + apply Forall_forall. intros r [-> _]%scan_results. done.
    + apply Forall_forall. intros r [_ (text & Ht & ? & ?)]%scan_results.
      exists text. split; [|done]. right. by apply canvas_tooltips_from.
    + destruct (Scraper.canvas_box pg) as [b|] eqn:Hb.
      * right. exists b. split; [done|]. etrans; [apply scan_length|].
        unfold Scraper.canvas_tooltips. by rewrite Hb, length_map.
      * left. unfold Scraper.canvas_tooltips. rewrite Hb. simpl. lia.
Qed.

(** ** The grid of the canvas scan *)

Section Grid.
Import Scraper.

Lemma range_elem (start stop step x : Z) :
  0 < step →
  x ∈ range start stop step ↔ start ≤ x < stop ∧ (x - start) mod step = 0.
Proof.
  intros Hstep. unfold range. rewrite list_elem_of_fmap.
  set (n := (stop - start + step - 1) / step).
  assert (∀ k, k < n ↔ start + step * k < stop) as Hn.
  { intros k. unfold n.
    pose proof (Z.mod_pos_bound (stop - start + step - 1) step Hstep).
    pose proof (Z.div_mod (stop - start + step - 1) step ltac:(lia)).
    split; intros Hk; nia. }
  split.
  - intros (k & -> & Hk). apply elem_of_seq in Hk.
    assert (Z.of_nat k < n) as Hlt by lia. apply Hn in Hlt.
    split; [nia|].
    replace (start + step * Z.of_nat k - start) with (Z.of_nat k * step)
      by lia.
    apply Z.mod_mul. lia.
  - intros [[Hlo Hhi] Hmod].
    apply Z.mod_divide in Hmod as [k Hk]; [|lia].
    assert (0 ≤ k) by nia.
    exists (Z.to_nat k). split; [nia|].
    apply elem_of_seq. split; [lia|].
    assert (k < n) by (apply Hn; nia). lia.
Qed.

Lemma range_sorted (start stop step : Z) :
  0 < step → StronglySorted Z.lt (range start stop step).
Proof.
  intros Hstep. unfold range.
  generalize (Z.to_nat ((stop - start + step - 1) / step)) as n.
  generalize O as i. intros i n. revert i.
  induction n as [|n IH]; intros i; [constructor|].
  simpl. constructor; [apply IH|].
  apply Forall_forall. intros y (k & -> & Hk%elem_of_seq)%list_elem_of_fmap.
  nia.
Qed.

(** Row by row: by [y], then by [x]. *)
Definition row_major (p q : Z * Z) : Prop :=
  p.2 < q.2 ∨ (p.2 = q.2 ∧ p.1 < q.1).

Lemma row_sorted (xs : list Z) (y : Z) (l : list (Z * Z)) :
  StronglySorted Z.lt xs → StronglySorted row_major l →
  Forall (fun q => y < q.2) l →
  StronglySorted row_major ((x ← xs; [(x, y)]) ++ l).
Proof.
  intros Hxs Hl Hlt. induction Hxs as [|x xs Hxs IHx Hx]; [done|].
  csimpl. constructor; [done|].
  apply Forall_app. split.
  - apply Forall_forall. intros q (x' & ->%list_elem_of_singleton & Hx')
      %list_elem_of_bind.
    right. split; [done|]. simpl.
    by eapply Forall_forall in Hx.
  - eapply Forall_impl; [exact Hlt|]. intros q Hq. by left.
Qed.

Lemma product_sorted (xs ys : list Z) :
  StronglySorted Z.lt xs → StronglySorted Z.lt ys →
  StronglySorted row_major (y ← ys; x ← xs; [(x, y)]).
Proof.
  intros Hxs Hys. induction Hys as [|y ys Hys IH Hy]; [constructor|].
  csimpl. apply row_sorted; [done..|].
  apply Forall_forall. intros q (y' & (x' & ->%list_elem_of_singleton & _)
    %list_elem_of_bind & Hy')%list_elem_of_bind.
  simpl. by eapply Forall_forall in Hy.
Qed.

Lemma product_length (xs ys : list Z) :
  length (y ← ys; x ← xs; [(x, y)]) = (length ys * length xs)%nat.
Proof.
  induction ys as [|y ys IH]; [done|]. csimpl.
  rewrite length_app, IH. f_equal.
  clear. induction xs as [|x xs IH]; [done|]. csimpl. by rewrite IH.
Qed.

Lemma range_length (start stop step : Z) :
  length (range start stop step)
  = Z.to_nat ((stop - start + step - 1) / step).
Proof. unfold range. by rewrite length_map, length_seq. Qed.

Lemma row_major_NoDup (l : list (Z * Z)) :
  StronglySorted row_major l → NoDup l.
Proof.
  induction 1 as [|p l Hl IH Hp]; constructor; [|done].
  intros Hin. eapply Forall_forall in Hp; [|exact Hin].
  unfold row_major in Hp. lia.
Qed.

End Grid.


(** ** The verdict of the automated verifier *)

Section Verdict.
Import AutoVerify.
Implicit Types (found : gmap pystr web_data) (lookup : gmap pystr our_record).

(** Entries in increasing order of their keys. *)
Definition key_lt (p q : pystr * web_data) : Prop := ltb p.1 q.1 = true.

Lemma strict_of_sorted (l : list (pystr * web_data)) :
  StronglySorted (fun a b => ltb b.1 a.1 = false) l → NoDup l.*1 →
  StronglySorted key_lt l.
Proof.
  induction 1 as [|p l Hl IH Hp]; [constructor|].
  rewrite fmap_cons. intros [Hnotin Hnd]%NoDup_cons.
  constructor; [by apply IH|].
  apply Forall_forall. intros q Hq.
  eapply Forall_forall in Hp; [|exact Hq]. simpl in Hp.
  unfold key_lt. destruct (ltb p.1 q.1) eqn:Hpq; [done|].
  exfalso. apply Hnotin. rewrite (ltb_connected _ _ Hpq Hp).
  by apply list_elem_of_fmap_2.
Qed.

Lemma entries_sorted found :
  StronglySorted key_lt
    (Csv.sorted (fun x y => ltb x.1 y.1) (map_to_list found)).
Proof.
  apply strict_of_sorted.
  - apply (sorted_sorted ltb fst ltb_strict_total).
  - rewrite sorted_perm. apply NoDup_fst_map_to_list.
Qed.

Lemma compared_length found : (length (compared found) ≤ 15)%nat.
Proof. unfold compared. rewrite length_take. lia. Qed.

Lemma compared_sorted found : StronglySorted key_lt (compared found).
Proof.
  unfold compared. eapply StronglySorted_app_1_l.
  rewrite take_drop. apply entries_sorted.
Qed.

Lemma compared_first found key web key' web' :
  (key, web) ∈ compared found → found !! key' = Some web' →
  (key', web') ∉ compared found → ltb key key' = true.
Proof.
  unfold compared. intros Hin Hk' Hout.
  apply elem_of_map_to_list in Hk'.
  rewrite <- (sorted_perm (fun x y => ltb x.1 y.1)) in Hk'.
  rewrite <- (take_drop 15) in Hk'. apply elem_of_app in Hk' as [?|Hk']; [done|].
  pose proof (entries_sorted found) as Hs.
  rewrite <- (take_drop 15) in Hs.
  change (key_lt (key, web) (key', web')).
  eapply StronglySorted_app_1_elem_of; [exact Hs | exact Hin | exact Hk'].
Qed.

Lemma compared_all found key web :
  (size found ≤ 15)%nat → found !! key = Some web →
  (key, web) ∈ compared found.
Proof.
  intros Hsize Hk. unfold compared. rewrite take_ge.
  - rewrite sorted_perm. by apply elem_of_map_to_list.
  - by rewrite sorted_length, length_map_to_list.
Qed.

Lemma bind_nil {A B} (f : A -> list B) (l : list A) :
  l ≫= f = [] ↔ Forall (fun x => f x = []) l.
Proof.
  induction l as [|x l IH]; csimpl.
  - split; [constructor | done].
  - rewrite Forall_cons, <- IH. split.
    + by intros [? ?]%app_eq_nil.
    + by intros [-> ->].
Qed.

Lemma bind_length_le {A B} (f : A -> list B) (n : nat) (l : list A) :
  (∀ x, length (f x) ≤ n)%nat → (length (l ≫= f) ≤ n * length l)%nat.
Proof.
  intros Hf. induction l as [|x l IH]; csimpl; [lia|].
  rewrite length_app. specialize (Hf x). lia.
Qed.

Lemma check_nil lookup key web :
  check lookup (key, web) = [] ↔
  ∃ our, lookup !! key = Some our
         ∧ differs (individual web) (i our) = false
         ∧ differs (small_group web) (s our) = false.
Proof.
  unfold check. destruct (lookup !! key) as [our|].
  - split.
    + intros H. exists our. split; [done|].
      by destruct (differs (individual web) (i our)),
        (differs (small_group web) (s our)).
    + by intros (our' & [= <-] & -> & ->).
  - split; [discriminate | by intros (? & ? & _)].
Qed.

Lemma check_length lookup entry : (length (check lookup entry) ≤ 2)%nat.
Proof.
  destruct entry as [key web]. unfold check.
  destruct (lookup !! key) as [our|]; [|simpl; lia].
  destruct (differs (individual web) (i our)),
    (differs (small_group web) (s our)); simpl; lia.
Qed.

End Verdict.

(** X11. The entries the verifier compares are at most fifteen entries of
    the scraped dictionary, in strictly increasing order of their keys
    (code point order), and they are its smallest keys: every entry left
    out has a key greater than every compared one, and nothing is left out
    of a dictionary of at most fifteen entries. *)
Theorem compared_are_the_first_fifteen
    (found : gmap pystr AutoVerify.web_data) :
  let entries := AutoVerify.compared found in
  (length entries ≤ 15)%nat ∧
  length entries = Nat.min 15 (size found) ∧
  StronglySorted key_lt entries ∧
  (∀ key web, (key, web) ∈ entries → found !! key = Some web) ∧
  (∀ key web key' web',
     (key, web) ∈ entries → found !! key' = Some web' →
     (key', web') ∉ entries → ltb key key' = true) ∧
  ((size found ≤ 15)%nat →
   ∀ key web, found !! key = Some web → (key, web) ∈ entries).
Proof.
  intros entries. split_and!.
  - apply compared_length.
  - unfold entries, AutoVerify.compared.
    by rewrite length_take, sorted_length, length_map_to_list.
  - apply compared_sorted.
  - apply compared_lookup.
  - apply compared_first.
  - intros Hsize key web. by apply compared_all.
Qed.

(** X12. [verify] answers [True] exactly when every compared key has a
    counterpart in the expected data and neither its individual nor its
    small-group value differs from the expected one; it counts at most two
    mismatches per compared key, so at most thirty; and it answers [True]
    when nothing was scraped. *)
Theorem verify_verdict
    (found : gmap pystr AutoVerify.web_data)
    (lookup : gmap pystr AutoVerify.our_record) :
  (AutoVerify.verify found lookup = true ↔
   ∀ key web,
     (key, web) ∈ AutoVerify.compared found →
     ∃ our, lookup !! key = Some our
            ∧ AutoVerify.differs (AutoVerify.individual web)
                (AutoVerify.i our) = false
            ∧ AutoVerify.differs (AutoVerify.small_group web)
                (AutoVerify.s our) = false) ∧
  (AutoVerify.mismatches found lookup
   ≤ 2 * length (AutoVerify.compared found))%nat ∧
  (AutoVerify.mismatches found lookup ≤ 30)%nat ∧
  AutoVerify.verify ∅ lookup = true.
Proof.
  assert (AutoVerify.mismatches found lookup
          ≤ 2 * length (AutoVerify.compared found))%nat as Hle.
  { unfold AutoVerify.mismatches. rewrite reports_bind.
    apply bind_length_le, check_length. }
  split_and!; [|done| |].
  - unfold AutoVerify.verify, AutoVerify.mismatches.
    rewrite Nat.eqb_eq, length_zero_iff_nil, reports_bind, bind_nil.
    rewrite Forall_forall. split.
    + intros H key web Hin. by apply check_nil, (H (key, web)).
    + intros H [key web] Hin. by apply check_nil, H.
  - pose proof (compared_length found). lia.
  - unfold AutoVerify.verify, AutoVerify.mismatches, AutoVerify.reports,
      AutoVerify.compared.
    by rewrite map_to_list_empty.
Qed.

Section Ignored.
Import AutoVerify.

Lemma key_lt_antisym (p q : pystr * web_data) :
  key_lt p q → key_lt q p → p = q.
Proof.
  unfold key_lt. intros Hpq Hqp.
  pose proof (ltb_trans _ _ _ Hpq Hqp) as Hc. by rewrite ltb_irrefl in Hc.
Qed.

Lemma compared_fmap (f : web_data -> web_data)
    (found : gmap pystr web_data) :
  compared (f <$> found) = prod_map id f <$> compared found.
Proof.
  unfold compared. rewrite fmap_take. f_equal.
  apply (StronglySorted_unique_strong key_lt).
  - intros p q _ _. apply key_lt_antisym.
  - apply entries_sorted.
  - eapply StronglySorted_fmap; [|apply entries_sorted].
    by intros [k w] [k' w'].
  - by rewrite !sorted_perm, map_to_list_fmap.
Qed.

Lemma check_fmap (f : web_data -> web_data) (g : our_record -> our_record)
    (lookup : gmap pystr our_record) (key : pystr) (web : web_data) :
  (∀ w, individual (f w) = individual w
        ∧ small_group (f w) = small_group w) →
  (∀ o, i (g o) = i o ∧ s (g o) = s o) →
  check (g <$> lookup) (key, f web) = check lookup (key, web).
Proof.
  intros Hf Hg. unfold check. rewrite lookup_fmap.
  destruct (lookup !! key) as [our|]; [|done]. simpl.
  destruct (Hf web) as [-> ->]. by destruct (Hg our) as [-> ->].
Qed.

End Ignored.

(** X13. The verifier never looks at the difference it scraped, nor at
    the expected difference, nor at the county and state stored in a
    scraped entry: changing these in any way, entry by entry, while the
    individual and small-group values stay as they are, leaves every
    report, and so the verdict, unchanged. *)
Theorem verify_ignores_the_difference
    (found : gmap pystr AutoVerify.web_data)
    (lookup : gmap pystr AutoVerify.our_record)
    (f : AutoVerify.web_data -> AutoVerify.web_data)
    (g : AutoVerify.our_record -> AutoVerify.our_record) :
  (∀ w, AutoVerify.individual (f w) = AutoVerify.individual w
        ∧ AutoVerify.small_group (f w) = AutoVerify.small_group w) →
  (∀ o, AutoVerify.i (g o) = AutoVerify.i o
        ∧ AutoVerify.s (g o) = AutoVerify.s o) →
  AutoVerify.reports (f <$> found) (g <$> lookup)
  = AutoVerify.reports found lookup
  ∧ AutoVerify.verify (f <$> found) (g <$> lookup)
    = AutoVerify.verify found lookup.
Proof.
  intros Hf Hg.
  assert (AutoVerify.reports (f <$> found) (g <$> lookup)
          = AutoVerify.reports found lookup) as Hrep.
  { rewrite !reports_bind, compared_fmap.
    induction (AutoVerify.compared found) as [|[key web] l IH]; [done|].
    csimpl. rewrite IH. f_equal.
    exact (check_fmap f g lookup key web Hf Hg). }
  split; [done|].
  unfold AutoVerify.verify, AutoVerify.mismatches. by rewrite Hrep.
Qed.

Lemma verify_ignores_the_difference_witness :
  AutoVerify.reports
    ((fun w => {| AutoVerify.county := [];
                  AutoVerify.state := [];
                  AutoVerify.difference := Some 1%float;
                  AutoVerify.individual := AutoVerify.individual w;
                  AutoVerify.small_group := AutoVerify.small_group w |})
       <$> Examples.harris_found)
    ((fun o => {| AutoVerify.i := AutoVerify.i o;
                  AutoVerify.s := AutoVerify.s o;
                  AutoVerify.d := Some 2%float |})
       <$> Examples.harris_lookup)
  = AutoVerify.reports Examples.harris_found Examples.harris_lookup.
Proof.
  apply (verify_ignores_the_difference Examples.harris_found
           Examples.harris_lookup).
  - intros w. split; reflexivity.
  - intros o. split; reflexivity.
Defined.

(** ** What a match can be *)

Section Soundness.
Import Re.

(** [matches ic r s caps s' caps']: the pattern [r] can take the text
    between [s] and its suffix [s'], turning the groups [caps] into
    [caps']. *)
Inductive matches (ic : bool)
    : re -> pystr -> captures -> pystr -> captures -> Prop :=
| matches_empty s caps : matches ic Empty s caps s caps
| matches_lit l s s' caps :
    lit_prefix ic l s = Some s' → matches ic (Lit l) s caps s' caps
| matches_rep cs lo hi s caps (n : nat) :
    (lo ≤ n ≤ run ic cs hi s)%nat →
    matches ic (Rep cs lo hi) s caps (drop n s) caps
| matches_cat r1 r2 s caps s1 caps1 s2 caps2 :
    matches ic r1 s caps s1 caps1 → matches ic r2 s1 caps1 s2 caps2 →
    matches ic (Cat r1 r2) s caps s2 caps2
| matches_group name r s caps s' caps' :
    matches ic r s caps s' caps' →
    matches ic (Group name r) s caps s'
      (<[name := take (length s - length s') s]> caps').

Lemma backoff_Some {A} (lo n : nat) (try : nat -> option A) (a : A) :
  backoff lo try n = Some a → ∃ m, (lo ≤ m ≤ n)%nat ∧ try m = Some a.
Proof.
  induction n as [|n IH]; simpl.
  - destruct (0 <? lo)%nat eqn:Hlo; [done|]. apply Nat.ltb_ge in Hlo.
    destruct (try O) eqn:Ht; [|done]. intros [= ->]. exists O. split; [lia|done].
  - destruct (S n <? lo)%nat eqn:Hlo; [done|]. apply Nat.ltb_ge in Hlo.
    destruct (try (S n)) eqn:Ht.
    + intros [= ->]. exists (S n). split; [lia|done].
    + intros (m & Hm & Hk)%IH. exists m. split; [lia|done].
Qed.

(** Whatever the matcher answers comes from a match. *)
Lemma exec_sound {A} (ic : bool) (r : re) :
  ∀ (s : pystr) (caps : captures) (k : pystr -> captures -> option A) (a : A),
    exec ic r s caps k = Some a →
    ∃ s' caps', matches ic r s caps s' caps' ∧ k s' caps' = Some a.
Proof.
  induction r as [|l|cs lo hi|r1 IH1 r2 IH2|name r IH]; intros s caps k a; simpl.
  - intros H. exists s, caps. split; [constructor | done].
  - destruct (lit_prefix ic l s) as [s'|] eqn:Hl; [|done].
    intros H. exists s', caps. split; [by constructor | done].
  - intros (n & Hn & H)%backoff_Some. exists (drop n s), caps.
    split; [by constructor | done].
  - intros (s1 & caps1 & H1 & (s2 & caps2 & H2 & H)%IH2)%IH1.
    exists s2, caps2. split; [by econstructor | done].
  - intros (s' & caps' & H1 & H)%IH. eexists _, _.
    split; [by constructor | done].
Qed.

Lemma search_sound (ic : bool) (r : re) (s : pystr) (m : rmatch) :
  search ic r s = Some m →
  ∃ pre s0 s', s = pre ++ s0 ∧ matches ic r s0 ∅ s' (groups m).
Proof.
  induction s as [|c s IH]; simpl.
  - destruct (match_here ic r []) as [m'|] eqn:Hm; [|done].
    intros [= ->]. apply exec_sound in Hm as (s' & caps' & H & [= <-]).
    by exists [], [], s'.
  - destruct (match_here ic r (c :: s)) as [m'|] eqn:Hm.
    + intros [= ->]. apply exec_sound in Hm as (s' & caps' & H & [= <-]).
      by exists [], (c :: s), s'.
    + intros (pre & s0 & s' & -> & H)%IH. by exists (c :: pre), s0, s'.
Qed.

(** The names of the groups of a pattern; a match leaves every other
    name as it was. *)
Fixpoint group_names (r : re) : list string :=
  match r with
  | Group name r0 => name :: group_names r0
  | Cat r1 r2 => group_names r1 ++ group_names r2
  | _ => []
  end.

Lemma matches_preserves ic r s caps s' caps' (name : string) :
  matches ic r s caps s' caps' → name ∉ group_names r →
  caps' !! name = caps !! name.
Proof.
  induction 1 as [| | |r1 r2 s caps s1 caps1 s2 caps2 _ IH1 _ IH2
                  |n r s caps s' caps' _ IH]; simpl; try done.
  - rewrite elem_of_app. intros Hn. rewrite IH2, IH1; tauto.
  - rewrite elem_of_cons. intros Hn.
    etrans; [apply (lookup_insert_ne (M := gmap string)); intros -> | apply IH];
      tauto.
Qed.

Lemma run_spec ic cs (s : pystr) :
  ∀ (hi : option nat) (n : nat),
    (n ≤ run ic cs hi s)%nat →
    (n ≤ length s)%nat
    ∧ Forall (fun c => cset_mem ic cs c = true) (take n s)
    ∧ (∀ h, hi = Some h → n ≤ h)%nat.
Proof.
  induction s as [|c s IH]; intros hi n.
  - destruct hi as [[|h]|]; simpl; intros Hn;
      (assert (n = O) as -> by lia); split_and!; try done;
      intros ? [= <-]; lia.
  - destruct hi as [[|h]|]; simpl.
    + intros Hn. assert (n = O) as -> by lia.
      split_and!; [lia | done | intros ? [= <-]; lia].
    + destruct (cset_mem ic cs c) eqn:Hc.
      * destruct n as [|n]; [intros _; split_and!; [lia | done | lia]|].
        intros Hn. destruct (IH (Some h) n) as (? & ? & Hh); [lia|].
        split_and!; [simpl; lia | by constructor |].
        intros ? [= <-]. specialize (Hh h eq_refl). lia.
      * intros Hn. assert (n = O) as -> by lia.
        split_and!; [lia | done | lia].
    + destruct (cset_mem ic cs c) eqn:Hc.
      * destruct n as [|n]; [intros _; split_and!; [lia | done | done]|].
        intros Hn. destruct (IH None n) as (? & ? & _); [lia|].
        split_and!; [simpl; lia | by constructor | done].
      * intros Hn. assert (n = O) as -> by lia.
        split_and!; [lia | done | done].
Qed.

(** The text a repetition takes. *)
Lemma matches_rep_inv ic cs lo hi s caps s' caps' :
  matches ic (Rep cs lo hi) s caps s' caps' →
  caps' = caps
  ∧ ∃ w, s = w ++ s' ∧ take (length s - length s') s = w
         ∧ (lo ≤ length w)%nat ∧ (∀ h, hi = Some h → length w ≤ h)%nat
         ∧ Forall (fun c => cset_mem ic cs c = true) w.
Proof.
  inversion 1 as [| |? ? ? ? ? n Hn| |]; subst. split; [done|].
  destruct (run_spec ic cs s hi n) as (Hlen & Hmem & Hhi); [lia|].
  exists (take n s).
  rewrite length_drop, length_take.
  replace (length s - (length s - n))%nat with n by lia.
  split_and!; [by rewrite take_drop | done | lia | | done].
  intros h Hh. specialize (Hhi h Hh). lia.
Qed.

End Soundness.

(** ** The shape of a parsed sample *)

Section Shape.
Import Re Scraper.

(** The start the two patterns of [parse_tooltip] share: the county
    group, the comma, blanks and the state group. *)
Definition head (n1 n2 : string) (tail : re) : re :=
  Cat (Group n1 (plus not_comma))
    (Cat (Lit (lit ","))
       (Cat (star space)
          (Cat (Group n2 (Rep upper_letter 2 (Some 2%nat))) tail))).

Definition tail_of (r : re) : re :=
  match r with
  | Cat _ (Cat _ (Cat _ (Cat _ tail))) => tail
  | _ => Empty
  end.

Lemma TOOLTIP_PATTERN_head :
  TOOLTIP_PATTERN = head "county" "state" (tail_of TOOLTIP_PATTERN).
Proof. reflexivity. Qed.

Lemma SIMPLE_PATTERN_head :
  SIMPLE_PATTERN = head "1" "2" (tail_of SIMPLE_PATTERN).
Proof. reflexivity. Qed.

Lemma letter_range (ic : bool) (c : N) :
  cset_mem ic upper_letter c = true → (65 ≤ c ≤ 122)%N.
Proof.
  unfold cset_mem, upper_letter.
  cbn [negated items existsb item_mem xorb].
  change (ch "A") with 65%N. change (ch "Z") with 90%N.
  rewrite orb_false_r. unfold lower, upper, in_range.
  destruct ic; cbn [andb];
    repeat (match goal with
            | |- context [if ?b then _ else _] =>
                match b with
                | context [(?x <=? ?y)%N] => destruct (N.leb_spec x y)
                | context [(?x =? ?y)%N] => destruct (N.eqb_spec x y)
                end
            | |- context [(?x <=? ?y)%N] => destruct (N.leb_spec x y)
            | |- context [(?x =? ?y)%N] => destruct (N.eqb_spec x y)
            end; cbn [andb orb negb]; try (intros _; lia);
            try (intros Hf; discriminate Hf)).
Qed.

Lemma range_no_space (c : N) : (65 ≤ c ≤ 122)%N → isspace c = false.
Proof.
  unfold isspace, in_range. intros [H1 H2].
  repeat (apply orb_false_intro);
    first [ apply N.eqb_neq; lia
          | apply andb_false_iff; left; apply N.leb_gt; lia
          | apply andb_false_iff; right; apply N.leb_gt; lia ].
Qed.

Lemma not_comma_inv (ic : bool) (c : N) :
  cset_mem ic not_comma c = true → c ≠ 44%N.
Proof. intros H ->. by destruct ic. Qed.

Lemma lit_comma (ic : bool) (s s' : pystr) :
  lit_prefix ic (lit ",") s = Some s' → s = 44%N :: s'.
Proof.
  destruct s as [|c s]; [done|]. simpl.
  destruct (chr_eq ic _ c) eqn:Hc; [|done].
  intros [= ->]. f_equal. unfold chr_eq in Hc.
  destruct ic; apply N.eqb_eq in Hc; [|done].
  change (lower 44) with 44%N in Hc.
  destruct (decide (c = 44%N)) as [|Hne]; [done|].
  by apply lower_not_comma in Hne.
Qed.

Lemma head_shape (ic : bool) (n1 n2 : string) (tail : re)
    (s s' : pystr) (caps' : captures) :
  n1 ≠ n2 → n1 ∉ group_names tail → n2 ∉ group_names tail →
  matches ic (head n1 n2 tail) s ∅ s' caps' →
  ∃ county st rest,
    s = county ++ 44%N :: rest
    ∧ caps' !! n1 = Some county ∧ caps' !! n2 = Some st
    ∧ county ≠ [] ∧ Forall (fun c => c ≠ 44%N) county
    ∧ length st = 2%nat ∧ Forall (fun c => (65 ≤ c ≤ 122)%N) st.
Proof.
  intros Hne Hn1 Hn2 Hm. unfold head, plus, star in Hm.
  inversion Hm as [| | |? ? ? ? s1 c1 ? ? Hg1 Hr1|]; subst; clear Hm.
  inversion Hg1 as [| | | |? ? ? ? ? c0 Hrep1]; subst; clear Hg1.
  apply matches_rep_inv in Hrep1
    as (-> & county & Hs & Hcounty & Hlen & _ & Hmem).
  rewrite Hcounty in Hr1.
  inversion Hr1 as [| | |? ? ? ? s2 c2 ? ? Hl Hr2|]; subst s1; subst; clear Hr1.
  inversion Hl as [|? ? ? ? Hpre| | |]; subst; clear Hl.
  apply lit_comma in Hpre.
  inversion Hr2 as [| | |? ? ? ? s3 c3 ? ? Hsp Hr3|]; subst; clear Hr2.
  apply matches_rep_inv in Hsp as (-> & _).
  inversion Hr3 as [| | |? ? ? ? s4 c4 ? ? Hg2 Ht|]; subst; clear Hr3.
  inversion Hg2 as [| | | |? ? ? ? ? c5 Hrep2]; subst; clear Hg2.
  apply matches_rep_inv in Hrep2
    as (-> & st & Hs3 & Hst & Hlo & Hhi & Hmem2).
  rewrite Hst in Ht.
  eexists _, st, s2. split_and!.
  - exact Hs.
  - etrans; [exact (matches_preserves _ _ _ _ _ _ _ Ht Hn1)|].
    etrans; [by apply (lookup_insert_ne (M := gmap string))|].
    apply (lookup_insert_eq (M := gmap string)).
  - etrans; [exact (matches_preserves _ _ _ _ _ _ _ Ht Hn2)|].
    apply (lookup_insert_eq (M := gmap string)).
  - intros Heq. rewrite Heq in Hlen. simpl in Hlen. lia.
  - eapply Forall_impl; [exact Hmem|]. intros c. apply not_comma_inv.
  - specialize (Hhi 2%nat eq_refl). lia.
  - eapply Forall_impl; [exact Hmem2|]. intros c. apply letter_range.
Qed.

(** [strip] removes characters at both ends only. *)
Lemma lstrip_Forall (P : N → Prop) (t : pystr) :
  Forall P t → Forall P (lstrip t).
Proof.
  induction 1 as [|c t Hc Ht IH]; [done|]. simpl.
  destruct (isspace c); [done | by constructor].
Qed.

Lemma strip_Forall (P : N → Prop) (t : pystr) :
  Forall P t → Forall P (strip t).
Proof.
  intros H. unfold strip, rstrip.
  by apply Forall_reverse, lstrip_Forall, Forall_reverse, lstrip_Forall.
Qed.

(** What [parse_tooltip] returns is built from a match of one of the two
    patterns in the normalised text. *)
Lemma parse_tooltip_inv (text : option pystr) (d : sample) :
  parse_tooltip text = Return (Some d) →
  ∃ raw ic r m n1 n2,
    text = Some raw ∧ raw ≠ []
    ∧ search ic r (join (lit " ") (split raw)) = Some m
    ∧ ((r = TOOLTIP_PATTERN ∧ n1 = "county"%string ∧ n2 = "state"%string)
       ∨ (r = SIMPLE_PATTERN ∧ n1 = "1"%string ∧ n2 = "2"%string))
    ∧ county d = strip (group m n1) ∧ state d = strip (group m n2).
Proof.
  destruct text as [raw|]; [|discriminate].
  destruct raw as [|c raw]; [discriminate|].
  unfold parse_tooltip.
  destruct (search true TOOLTIP_PATTERN _) as [m|] eqn:Hm.
  - destruct (parse_money (Some (group m "individual"))) as [i|] eqn:Hi;
      [|discriminate].
    destruct (parse_money (Some (group m "small_group"))) as [sg|] eqn:Hs;
      [|discriminate].
    destruct (parse_money (Some (group m "diff"))) as [df|] eqn:Hd;
      [|discriminate].
    cbn [mbind outcome_bind mret outcome_ret]. intros [= <-].
    exists (c :: raw), true, TOOLTIP_PATTERN, m, "county"%string,
      "state"%string.
    split_and!; [done | done | exact Hm | by left | done | done].
  - destruct (search false SIMPLE_PATTERN _) as [m|] eqn:Hsimple;
      [|discriminate].
    destruct (2 <=? length _)%nat; [|discriminate].
    destruct (parse_money (index _ (-2))) as [i|]; [|discriminate].
    destruct (if (1 <=? _)%nat then _ else _) as [sg|]; [|discriminate].
    destruct (if (3 <=? _)%nat then _ else _) as [df|]; [|discriminate].
    cbn [mbind outcome_bind mret outcome_ret]. intros [= <-].
    exists (c :: raw), false, SIMPLE_PATTERN, m, "1"%string, "2"%string.
    split_and!; [done | done | exact Hsimple | by right | done | done].
Qed.

End Shape.

Section Parsed.
Import Re Scraper.

Lemma not_a_group (name : string) (l : list string) :
  bool_decide (name ∈ l) = false → name ∉ l.
Proof. apply bool_decide_eq_false. Qed.

(** The county and state of a parsed sample, and the comma of the
    normalised text. *)
Lemma parse_tooltip_shape (text : option pystr) (d : sample) :
  parse_tooltip text = Return (Some d) →
  ∃ raw county_text rest pre,
    text = Some raw
    ∧ join (lit " ") (split raw) = pre ++ county_text ++ 44%N :: rest
    ∧ county d = strip county_text
    ∧ Forall (fun c => c ≠ 44%N) county_text
    ∧ length (state d) = 2%nat
    ∧ Forall (fun c => (65 ≤ c ≤ 122)%N) (state d).
Proof.
  intros (raw & ic & r & m & n1 & n2 & -> & Hraw & Hsearch & Hr & Hc & Hs)
    %parse_tooltip_inv.
  apply search_sound in Hsearch as (pre & s0 & s' & Htext & Hm).
  assert (∃ county_text st rest,
            s0 = county_text ++ 44%N :: rest
            ∧ groups m !! n1 = Some county_text ∧ groups m !! n2 = Some st
            ∧ county_text ≠ [] ∧ Forall (fun c => c ≠ 44%N) county_text
            ∧ length st = 2%nat ∧ Forall (fun c => (65 ≤ c ≤ 122)%N) st)
    as (county_text & st & rest & Hs0 & Hg1 & Hg2 & _ & Hcomma & Hlen & Hst).
  { destruct Hr as [(-> & -> & ->)|(-> & -> & ->)].
    - rewrite TOOLTIP_PATTERN_head in Hm.
      apply head_shape in Hm; [done | done | |];
        by apply not_a_group; vm_compute.
    - rewrite SIMPLE_PATTERN_head in Hm.
      apply head_shape in Hm; [done | done | |];
        by apply not_a_group; vm_compute. }
  unfold group in Hc, Hs. rewrite Hg1 in Hc. rewrite Hg2 in Hs.
  simpl in Hc, Hs.
  rewrite strip_no_space in Hs
    by (eapply Forall_impl; [exact Hst | apply range_no_space]).
  exists raw, county_text, rest, pre. rewrite Hs.
  split_and!; [done | by rewrite Htext, Hs0 | done | done | done | done].
Qed.

Lemma split_go_chars (cur s w : pystr) (c : N) :
  w ∈ split_go cur s → c ∈ w → c ∈ cur ∨ c ∈ s.
Proof.
  revert cur. induction s as [|x s IH]; intros cur; simpl.
  - destruct cur; [by intros ?%elem_of_nil|].
    intros ->%list_elem_of_singleton. by left.
  - destruct (isspace x).
    + destruct cur as [|y cur].
      * intros Hw Hc. destruct (IH [] Hw Hc) as [?%elem_of_nil|?]; [done|].
        right. by right.
      * intros [->|Hw]%elem_of_cons Hc; [by left|].
        destruct (IH [] Hw Hc) as [?%elem_of_nil|?]; [done|].
        right. by right.
    + intros Hw Hc. destruct (IH _ Hw Hc) as [Hin|?].
      * apply elem_of_app in Hin as [?| ->%list_elem_of_singleton];
          [by left | right; by left].
      * right. by right.
Qed.

Lemma join_chars (sep : pystr) (parts : list pystr) (c : N) :
  c ∈ join sep parts → c ∈ sep ∨ ∃ w, w ∈ parts ∧ c ∈ w.
Proof.
  induction parts as [|w parts IH]; [by intros ?%elem_of_nil|].
  destruct parts as [|w' parts].
  - simpl. intros Hc. right. exists w. split; [by left | done].
  - change (join sep (w :: w' :: parts))
      with (w ++ sep ++ join sep (w' :: parts)).
    rewrite !elem_of_app. intros [Hc|[Hc|Hc]].
    + right. exists w. split; [by left | done].
    + by left.
    + destruct (IH Hc) as [?|(w0 & Hw0 & ?)]; [by left|].
      right. exists w0. split; [by right | done].
Qed.

Lemma normalised_comma (raw : pystr) :
  44%N ∈ join (lit " ") (split raw) → 44%N ∈ raw.
Proof.
  intros [Hsep|(w & Hw & Hc)]%join_chars.
  - apply list_elem_of_singleton in Hsep. discriminate Hsep.
  - destruct (split_go_chars [] raw w 44%N Hw Hc) as [?%elem_of_nil|?]; done.
Qed.

Lemma parse_money_returns (value : option pystr) :
  ∃ x, parse_money value = Return x.
Proof.
  destruct value as [v|]; [|eexists; reflexivity].
  destruct v as [|c v]; [eexists; reflexivity|].
  unfold parse_money. cbv zeta.
  destruct (PyFloat.py_float _) as [x|[]]; eexists; reflexivity.
Qed.

Lemma parse_tooltip_returns (text : option pystr) :
  ∃ r, parse_tooltip text = Return r.
Proof.
  destruct text as [raw|]; [|eexists; reflexivity].
  destruct raw as [|c raw]; [eexists; reflexivity|].
  unfold parse_tooltip. cbv zeta.
  destruct (search true TOOLTIP_PATTERN _) as [m|].
  - destruct (parse_money_returns (Some (group m "individual"))) as [i ->].
    destruct (parse_money_returns (Some (group m "small_group"))) as [sg ->].
    destruct (parse_money_returns (Some (group m "diff"))) as [df ->].
    eexists. reflexivity.
  - destruct (search false SIMPLE_PATTERN _) as [m|];
      [|eexists; reflexivity].
    destruct (2 <=? length _)%nat; [|eexists; reflexivity].
    destruct (1 <=? length _)%nat, (3 <=? length _)%nat;
      repeat match goal with
             | |- context [parse_money ?v] =>
                 destruct (parse_money_returns v) as [? ->]
             end;
      eexists; reflexivity.
Qed.

Lemma key_of_inj (d d' : sample) :
  length (state d) = 2%nat → length (state d') = 2%nat →
  key_of d = key_of d' → county d = county d' ∧ state d = state d'.
Proof.
  unfold key_of. intros Hd Hd' Hkey.
  apply app_inj_2 in Hkey as [Hc Hs].
  - split; [done|]. by apply app_inv_head in Hs.
  - by rewrite !length_app, Hd, Hd'.
Qed.

End Parsed.





(** ** The samples the verifier collects *)

Section Collect.
Import AutoVerify.
Context (parse : pystr -> outcome (option web_data)).
Implicit Types (found : gmap pystr web_data) (row : list (option pystr)).

(** Every entry is a sample parsed from one of the texts, has a county,
    and is stored under its key. *)
Definition collected (texts : list (option pystr)) found : Prop :=
  ∀ key d, found !! key = Some d →
           key = key_of d ∧ county d ≠ []
           ∧ ∃ text, Some text ∈ texts ∧ parse text = Return (Some d).

(** No sample with a county parsed from the non-empty texts is
    missing. *)
Definition complete (texts : list (option pystr)) found : Prop :=
  ∀ text d, Some text ∈ texts → text ≠ [] → parse text = Return (Some d) →
            county d ≠ [] → is_Some (found !! key_of d).

Definition raised (texts : list (option pystr)) (e : exn) : Prop :=
  ∃ text, Some text ∈ texts ∧ parse text = Raise e.

Lemma visit_spec (all seen : list (option pystr)) found (t : option pystr) :
  t ∈ all → (size found < 20)%nat →
  collected all found → complete seen found →
  match visit parse found t with
  | Return (found', stop) =>
      collected all found' ∧ complete (seen ++ [t]) found'
      ∧ (size found' ≤ 20)%nat
      ∧ stop = (20 <=? size found')%nat
  | Raise e => raised all e
  end.
Proof.
  intros Hin Hsize Hcol Hcom.
  assert (∀ found', found ⊆ found' →
            (∀ text d, t = Some text → text ≠ [] →
                       parse text = Return (Some d) →
                       county d ≠ [] → is_Some (found' !! key_of d)) →
            complete (seen ++ [t]) found') as Hstep.
  { intros found' Hsub Ht text d [Hs|Heq%list_elem_of_singleton]%elem_of_app
      Hne Hp Hc.
    - destruct (Hcom text d Hs Hne Hp Hc) as [d' Hd'].
      exists d'. by eapply lookup_weaken.
    - by eapply Ht. }
  assert ((20 <=? size found)%nat = false) as Hnot by (apply Nat.leb_gt; lia).
  unfold visit. destruct t as [text|]; [destruct text as [|c text]|].
  - rewrite Hnot. split_and!; [done | | lia | done].
    apply Hstep; [done|]. by intros ? ? [= <-].
  - assert (c :: text ≠ []) as Hne by done.
    destruct (parse (c :: text)) as [[d|]|e] eqn:Hp;
      cbn [mbind outcome_bind].
    + destruct (county d) as [|x county_d] eqn:Hc.
      { cbv beta iota zeta. rewrite Hnot. split_and!; [done | | lia | done].
        apply Hstep; [done|]. intros ? d' [= <-] _ Hp' Hc'.
        rewrite Hp in Hp'. injection Hp' as <-. by rewrite Hc in Hc'. }
      destruct (found !! key_of d) as [d0|] eqn:Hk.
      { cbv beta iota zeta. rewrite Hnot. split_and!; [done | | lia | done].
        apply Hstep; [done|]. intros ? d' [= <-] _ Hp' Hc'.
        rewrite Hp in Hp'. injection Hp' as <-. by exists d0. }
      cbv beta iota zeta. rewrite map_size_insert_None by done.
      split_and!; [| | lia | done].
      * intros key d'. destruct (decide (key = key_of d)) as [->|Hkey].
        -- rewrite lookup_insert_eq. intros [= <-].
           split_and!; [done | by rewrite Hc |]. by exists (c :: text).
        -- rewrite lookup_insert_ne by done. apply Hcol.
      * apply Hstep; [by apply insert_subseteq|].
        intros ? d' [= <-] _ Hp' Hc'. rewrite Hp in Hp'.
        injection Hp' as <-. rewrite lookup_insert_eq. by eexists.
    + rewrite Hnot. split_and!; [done | | lia | done].
      apply Hstep; [done|]. intros ? d' [= <-] _ Hp'. by rewrite Hp in Hp'.
    + by exists (c :: text).
  - rewrite Hnot. split_and!; [done | | lia | done].
    apply Hstep; [done|]. by intros ? ? [=].
Qed.

Lemma scan_row_spec (all : list (option pystr)) row :
  ∀ (seen : list (option pystr)) found,
    (∀ t, t ∈ row → t ∈ all) → (size found < 20)%nat →
    collected all found → complete seen found →
    match scan_row parse found row with
    | Return found' =>
        collected all found' ∧ (size found' ≤ 20)%nat
        ∧ ((size found' < 20)%nat → complete (seen ++ row) found')
    | Raise e => raised all e
    end.
Proof.
  induction row as [|t row IH]; intros seen found Hall Hsize Hcol Hcom.
  - simpl. rewrite app_nil_r. split_and!; [done | lia | done].
  - cbn [scan_row].
    pose proof (visit_spec all seen found t (Hall t ltac:(left)) Hsize
                  Hcol Hcom) as Hv.
    destruct (visit parse found t) as [[found' stop]|e]; [|done].
    destruct Hv as (Hcol' & Hcom' & Hle & ->). cbn [mbind outcome_bind].
    destruct (Nat.leb_spec 20 (size found')) as [Hge|Hlt].
    + split_and!; [done | done | lia].
    + replace (seen ++ t :: row) with ((seen ++ [t]) ++ row)
        by by rewrite <- app_assoc.
      apply IH; [|done..]. intros t' Ht'. apply Hall. by right.
Qed.

Lemma scan_rows_spec (all : list (option pystr))
    (rows : list (list (option pystr))) :
  ∀ (seen : list (option pystr)) found,
    (∀ t, t ∈ concat rows → t ∈ all) → (size found < 20)%nat →
    collected all found → complete seen found →
    match scan_rows parse found rows with
    | Return found' =>
        collected all found' ∧ (size found' ≤ 20)%nat
        ∧ ((size found' < 20)%nat → complete (seen ++ concat rows) found')
    | Raise e => raised all e
    end.
Proof.
  induction rows as [|row rows IH]; intros seen found Hall Hsize Hcol Hcom.
  - simpl. rewrite app_nil_r. split_and!; [done | lia | done].
  - cbn [scan_rows].
    assert (∀ t, t ∈ row → t ∈ all) as Hrow.
    { intros t Ht. apply Hall. simpl. apply elem_of_app. by left. }
    pose proof (scan_row_spec all row seen found Hrow Hsize Hcol Hcom) as Hr.
    destruct (scan_row parse found row) as [found'|e]; [|done].
    destruct Hr as (Hcol' & Hle & Hcom'). cbn [mbind outcome_bind].
    destruct (Nat.leb_spec 20 (size found')) as [Hge|Hlt].
    + split_and!; [done | done | lia].
    + simpl. rewrite app_assoc. apply IH; [|done|done|by apply Hcom'].
      intros t Ht. apply Hall. simpl. apply elem_of_app. by right.
Qed.

End Collect.

